(** * The Linux message queue and run loop of JUCE (juce_linux_Messaging.cpp)

    A shallow embedding of [InternalMessageQueue], [InternalRunLoop] and the
    [MessageManager] entry points built on them, with the properties of the
    design document proved (or refuted) about the embedding.

    Conventions.
    - A C++ [int] is a [Z]; the two increments of the file go through
      [wrap_int], the 32-bit two's-complement normalisation.
    - A [std::vector] or a [ReferenceCountedArray] is a [list], index 0 first.
    - Code behind a [std::function] or a virtual call is a parameter of the
      enclosing Section; what it may do to the objects of this file is what
      their public interface lets it do.
    - Effects that leave the process (system calls, callback invocations,
      reported exceptions) are appended to a log, oldest entry first. *)

From Stdlib Require Import ZArith List Bool Lia.
Import ListNotations.
Open Scope Z_scope.

(** ** Machine integers *)

Definition wrap_int (z : Z) : Z := (z + 2 ^ 31) mod 2 ^ 32 - 2 ^ 31.

Definition is_int (z : Z) : Prop := - 2 ^ 31 <= z < 2 ^ 31.

(** ** Containers *)

(** Modelled from the spec: [ReferenceCountedArray] is declared outside this
    file.  [add] "appends item to PendingQueue"; [removeAndReturn 0] "removes
    and returns the head of PendingQueue, or signals empty if the queue is
    empty" (a null [Ptr], here [None]). *)
Definition add {A : Type} (arr : list A) (x : A) : list A := arr ++ [x].

Fixpoint removeAndReturn {A : Type} (index : nat) (arr : list A)
  : option A * list A :=
  match arr, index with
  | [], _ => (None, [])
  | x :: rest, O => (Some x, rest)
  | x :: rest, S i =>
      let (r, rest') := removeAndReturn i rest in (r, x :: rest')
  end.

(** [std::vector::front] has the precondition that the vector is not empty;
    on an empty vector the behaviour is undefined, here [None]. *)
Definition front {A : Type} (v : list A) : option A :=
  match v with
  | [] => None
  | x :: _ => Some x
  end.

(** [v.erase (std::remove_if (begin, end, pred), end)]: the elements that do
    not satisfy [pred], in their order. *)
Definition erase_remove_if {A : Type} (pred : A -> bool) (v : list A) : list A :=
  filter (fun x => negb (pred x)) v.

(** * InternalMessageQueue *)

Module MessageQueue.

Definition maxBytesInSocketQueue : Z := 128.

Section WithMessages.

(** [MessageManager::MessageBase] objects.  Callers hand in [this], so a
    queued message is never null. *)
Variable Msg : Type.

Inductive Completion : Type :=
| Returns
| Throws.

(** [msg->messageCallback()]: the messages it posts back to the queue, in
    order, and how it ends. *)
Variable messageCallback : Msg -> list Msg * Completion.

Inductive Event : Type :=
| SysWrite (fd : Z) (byte : Z)
| SysRead (fd : Z)
| Invoked (msg : Msg)
| Reported (msg : Msg).

Record InternalMessageQueue : Type := mkQueue {
  queue : list Msg;
  msgpipe : Z * Z;
  bytesInSocket : Z;
  log : list Event
}.

Definition set_queue (q : list Msg) (s : InternalMessageQueue) :=
  mkQueue q (msgpipe s) (bytesInSocket s) (log s).

Definition set_bytesInSocket (b : Z) (s : InternalMessageQueue) :=
  mkQueue (queue s) (msgpipe s) b (log s).

Definition emit (e : Event) (s : InternalMessageQueue) :=
  mkQueue (queue s) (msgpipe s) (bytesInSocket s) (log s ++ [e]).

Definition getWriteHandle (s : InternalMessageQueue) : Z := fst (msgpipe s).
Definition getReadHandle (s : InternalMessageQueue) : Z := snd (msgpipe s).

(** The constructor, after [socketpair] has filled [msgpipe]. *)
Definition construct (pipe : Z * Z) : InternalMessageQueue :=
  mkQueue [] pipe 0 [].

Definition postMessage (msg : Msg) (s : InternalMessageQueue)
  : InternalMessageQueue :=
  let s1 := set_queue (add (queue s) msg) s in
  if bytesInSocket s1 <? maxBytesInSocketQueue then
    let s2 := set_bytesInSocket (wrap_int (bytesInSocket s1 + 1)) s1 in
    emit (SysWrite (getWriteHandle s2) 255) s2
  else s1.

(** [popNextMessage] holds the lock twice when the counter is positive:
    around the test and the decrement, and, after the [read] made with the
    lock released, around the removal. *)
Definition popNextMessage_count (fd : Z) (s : InternalMessageQueue)
  : InternalMessageQueue :=
  if 0 <? bytesInSocket s then
    emit (SysRead fd) (set_bytesInSocket (wrap_int (bytesInSocket s - 1)) s)
  else s.

Definition popNextMessage_remove (s : InternalMessageQueue)
  : option Msg * InternalMessageQueue :=
  let (r, q') := removeAndReturn 0 (queue s) in
  (r, set_queue q' s).

Definition popNextMessage (fd : Z) (s : InternalMessageQueue)
  : option Msg * InternalMessageQueue :=
  popNextMessage_remove (popNextMessage_count fd s).

(** Several posts in a row, and several pops in a row with what they
    returned. *)
Definition postAll (msgs : list Msg) (s : InternalMessageQueue)
  : InternalMessageQueue :=
  fold_left (fun acc m => postMessage m acc) msgs s.

Fixpoint popMany (n : nat) (fd : Z) (s : InternalMessageQueue)
  : list (option Msg) * InternalMessageQueue :=
  match n with
  | O => ([], s)
  | S k =>
      let (r, s1) := popNextMessage fd s in
      let (rs, s2) := popMany k fd s1 in
      (r :: rs, s2)
  end.

(** [msg->messageCallback()] on a popped message. *)
Definition runMessage (msg : Msg) (s : InternalMessageQueue)
  : Completion * InternalMessageQueue :=
  let (posts, c) := messageCallback msg in
  (c, postAll posts (emit (Invoked msg) s)).

(** Modelled from the spec: the macros [JUCE_TRY] and [JUCE_CATCH_EXCEPTION]
    are defined outside this file.  "A work item's invocation raising a
    failure" is "caught and reported through the host's generic
    error-reporting path": the handler turns [Throws] into a report and lets
    control fall out of the try block. *)
Definition JUCE_CATCH_EXCEPTION (msg : Msg)
  (r : Completion * InternalMessageQueue) : Completion * InternalMessageQueue :=
  match r with
  | (Returns, s) => (Returns, s)
  | (Throws, s) => (Returns, emit (Reported msg) s)
  end.

(** The body of the drain loop: the try block and its handlers. *)
Definition tryInvoke (msg : Msg) (s : InternalMessageQueue)
  : Completion * InternalMessageQueue :=
  JUCE_CATCH_EXCEPTION msg (runMessage msg s).

Inductive DrainResult : Type :=
| Drained (s : InternalMessageQueue)
| Unwound (s : InternalMessageQueue)
| StillDraining (s : InternalMessageQueue).

Definition state_of (r : DrainResult) : InternalMessageQueue :=
  match r with
  | Drained s | Unwound s | StillDraining s => s
  end.

(** The callback registered by the constructor:
    [while (auto msg = popNextMessage (fd)) { try-invoke }].
    [fuel] bounds the number of loop tests; [StillDraining] is the state
    reached when it is used up. *)
Fixpoint drainCallback (fuel : nat) (fd : Z) (s : InternalMessageQueue)
  : DrainResult :=
  match fuel with
  | O => StillDraining s
  | S k =>
      match popNextMessage fd s with
      | (None, s1) => Drained s1
      | (Some msg, s1) =>
          match tryInvoke msg s1 with
          | (Returns, s2) => drainCallback k fd s2
          | (Throws, s2) => Unwound s2
          end
      end
  end.

(** The queue taken one critical section at a time: that of [postMessage]
    and the two of [popNextMessage].  Threads interleave at this grain. *)
Inductive Op : Type :=
| Post (msg : Msg)
| PopCount (fd : Z)
| PopRemove.

Definition step (s : InternalMessageQueue) (op : Op) : InternalMessageQueue :=
  match op with
  | Post m => postMessage m s
  | PopCount fd => popNextMessage_count fd s
  | PopRemove => snd (popNextMessage_remove s)
  end.

Definition exec (ops : list Op) (s : InternalMessageQueue)
  : InternalMessageQueue :=
  fold_left step ops s.

Definition posted (ops : list Op) : list Msg :=
  flat_map (fun op => match op with Post m => [m] | _ => [] end) ops.

(** What the pops of [ops] returned, nulls left out. *)
Fixpoint popped (ops : list Op) (s : InternalMessageQueue) : list Msg :=
  match ops with
  | [] => []
  | Post m :: rest => popped rest (postMessage m s)
  | PopCount fd :: rest => popped rest (popNextMessage_count fd s)
  | PopRemove :: rest =>
      let (r, s1) := popNextMessage_remove s in
      match r with
      | Some m => m :: popped rest s1
      | None => popped rest s1
      end
  end.

(** Projections of the log. *)
Definition invocations (l : list Event) : list Msg :=
  flat_map (fun e => match e with Invoked m => [m] | _ => [] end) l.

Definition writes (l : list Event) : list Event :=
  filter (fun e => match e with SysWrite _ _ => true | _ => false end) l.

Definition bytes_ok (s : InternalMessageQueue) : Prop :=
  0 <= bytesInSocket s <= maxBytesInSocketQueue.

Definition reads (l : list Event) : list Event :=
  filter (fun e => match e with SysRead _ => true | _ => false end) l.

Definition reports (l : list Event) : list Msg :=
  flat_map (fun e => match e with Reported m => [m] | _ => [] end) l.

Definition throws (m : Msg) : bool :=
  match snd (messageCallback m) with
  | Throws => true
  | Returns => false
  end.

(** The counter is the number of bytes written less the number read. *)
Definition balanced (s : InternalMessageQueue) : Prop :=
  bytesInSocket s
  = Z.of_nat (length (writes (log s))) - Z.of_nat (length (reads (log s))).

(** *** The queue among several threads

    [write] and [read] are called with the lock released ([ScopedUnlock]),
    so between a critical section and its system call another thread may
    run.  [Shared] is the queue together with the calls that threads still
    owe: a thread that left its critical section of [postMessage] with the
    counter incremented owes a [write], a thread that left the first
    critical section of [popNextMessage] with the counter decremented owes
    a [read] on its descriptor. *)
Record Shared : Type := mkShared {
  object : InternalMessageQueue;
  owedWrites : nat;
  owedReads : list Z
}.

(** What one thread does without another one running in between. *)
Inductive Move : Type :=
| PostLocked (msg : Msg)
| PostWrite
| PopLocked (fd : Z)
| PopRead
| PopRemoved.

Definition move (x : Shared) (m : Move) : Shared :=
  let s := object x in
  match m with
  | PostLocked msg =>
      let s1 := set_queue (add (queue s) msg) s in
      if bytesInSocket s1 <? maxBytesInSocketQueue then
        mkShared (set_bytesInSocket (wrap_int (bytesInSocket s1 + 1)) s1)
                 (S (owedWrites x)) (owedReads x)
      else mkShared s1 (owedWrites x) (owedReads x)
  | PostWrite =>
      match owedWrites x with
      | S k => mkShared (emit (SysWrite (getWriteHandle s) 255) s)
                        k (owedReads x)
      | O => x
      end
  | PopLocked fd =>
      if 0 <? bytesInSocket s then
        mkShared (set_bytesInSocket (wrap_int (bytesInSocket s - 1)) s)
                 (owedWrites x) (owedReads x ++ [fd])
      else x
  | PopRead =>
      match owedReads x with
      | fd :: rest => mkShared (emit (SysRead fd) s) (owedWrites x) rest
      | [] => x
      end
  | PopRemoved =>
      mkShared (snd (popNextMessage_remove s)) (owedWrites x) (owedReads x)
  end.

Definition moves (ms : list Move) (x : Shared) : Shared :=
  fold_left move ms x.

(** The bytes written and not yet read. *)
Definition unread (x : Shared) : Z :=
  Z.of_nat (length (writes (log (object x))))
  - Z.of_nat (length (reads (log (object x)))).

(** The counter is the calls issued and owed: writes less reads. *)
Definition accounted (x : Shared) : Prop :=
  bytes_ok (object x) /\
  bytesInSocket (object x)
  = unread x + Z.of_nat (owedWrites x) - Z.of_nat (length (owedReads x)).

(** No more wakeup bytes are accounted for than messages are queued. *)
Definition covered (s : InternalMessageQueue) : Prop :=
  bytes_ok s /\ bytesInSocket s <= Z.of_nat (length (queue s)).

End WithMessages.

Arguments queue {Msg} _.
Arguments msgpipe {Msg} _.
Arguments bytesInSocket {Msg} _.
Arguments log {Msg} _.
Arguments construct {Msg} _.
Arguments postMessage {Msg} _ _.
Arguments popNextMessage_count {Msg} _ _.
Arguments popNextMessage_remove {Msg} _.
Arguments popNextMessage {Msg} _ _.
Arguments postAll {Msg} _ _.
Arguments popMany {Msg} _ _ _.
Arguments step {Msg} _ _.
Arguments exec {Msg} _ _.
Arguments posted {Msg} _.
Arguments popped {Msg} _ _.
Arguments invocations {Msg} _.
Arguments writes {Msg} _.
Arguments bytes_ok {Msg} _.
Arguments reads {Msg} _.
Arguments reports {Msg} _.
Arguments throws {Msg} _ _.
Arguments balanced {Msg} _.
Arguments object {Msg} _.
Arguments owedWrites {Msg} _.
Arguments owedReads {Msg} _.
Arguments mkShared {Msg} _ _ _.
Arguments PostLocked {Msg} _.
Arguments PostWrite {Msg}.
Arguments PopLocked {Msg} _.
Arguments PopRead {Msg}.
Arguments PopRemoved {Msg}.
Arguments move {Msg} _ _.
Arguments moves {Msg} _ _.
Arguments unread {Msg} _.
Arguments accounted {Msg} _.
Arguments covered {Msg} _.
Arguments state_of {Msg} _.
Arguments Post {Msg} _.
Arguments PopCount {Msg} _.
Arguments PopRemove {Msg}.
Arguments Invoked {Msg} _.
Arguments Reported {Msg} _.
Arguments SysWrite {Msg} _ _.
Arguments SysRead {Msg} _.
Arguments runMessage {Msg} _ _ _.
Arguments JUCE_CATCH_EXCEPTION {Msg} _ _.
Arguments tryInvoke {Msg} _ _ _.
Arguments drainCallback {Msg} _ _ _ _.
Arguments Drained {Msg} _.
Arguments Unwound {Msg} _.
Arguments StillDraining {Msg} _.

End MessageQueue.

(** * InternalRunLoop *)

Module RunLoop.

Record pollfd : Type := mkPollfd {
  fd : Z;
  events : Z;
  revents : Z
}.

(** What one call of [poll] did: its return value and the [revents] the
    kernel stored, entry by entry.  Nothing relates the two, so a failed call
    (negative return, array untouched) is among the outcomes. *)
Record PollOutcome : Type := mkPoll {
  poll_ret : Z;
  poll_revents : list Z
}.

Fixpoint write_revents (v : list pollfd) (rs : list Z) : list pollfd :=
  match v, rs with
  | p :: v', r :: rs' => mkPollfd (fd p) (events p) r :: write_revents v' rs'
  | _, _ => v
  end.

Definition empty {A : Type} (v : list A) : bool :=
  match v with
  | [] => true
  | _ :: _ => false
  end.

Section WithCallbacks.

(** The [std::function<void (int)>] values handed to the run loop, and the
    state of the code behind them. *)
Variable Cb : Type.
Variable User : Type.

(** The interface of the run loop that is open to that code:
    [LinuxEventLoop::registerFdCallback] and
    [LinuxEventLoop::unregisterFdCallback]. *)
Inductive ApiCall : Type :=
| Register (d : Z) (cb : Cb) (eventMask : Z)
| Unregister (d : Z).

(** [cb (d)]: the new state of the code behind the callback and the calls
    made on the run loop while it ran, in order (its own, and those of other
    threads, which reach the pending change set under the same lock). *)
Variable invoke : Cb -> Z -> User -> User * list ApiCall.

Record InternalRunLoop : Type := mkLoop {
  fdReadCallbacks : list (Z * Cb);
  pfds : list pollfd;
  pendingAdditions : list (Z * Cb * pollfd);
  pendingRemovals : list Z
}.

(** The run loop together with the code around it: [calls] logs every
    callback invocation of the dispatch thread. *)
Record World : Type := mkWorld {
  loop : InternalRunLoop;
  user : User;
  calls : list (Z * Cb)
}.

Definition set_loop (s : InternalRunLoop) (w : World) : World :=
  mkWorld s (user w) (calls w).

Definition set_pfds (v : list pollfd) (s : InternalRunLoop) : InternalRunLoop :=
  mkLoop (fdReadCallbacks s) v (pendingAdditions s) (pendingRemovals s).

(** The constructor: four empty vectors. *)
Definition construct : InternalRunLoop := mkLoop [] [] [] [].

Definition registerFdCallback (d : Z) (cb : Cb) (eventMask : Z)
  (s : InternalRunLoop) : InternalRunLoop :=
  let pfd := mkPollfd d eventMask 0 in
  mkLoop (fdReadCallbacks s) (pfds s)
         (pendingAdditions s ++ [(d, cb, pfd)]) (pendingRemovals s).

Definition unregisterFdCallback (d : Z) (s : InternalRunLoop)
  : InternalRunLoop :=
  mkLoop (fdReadCallbacks s) (pfds s)
         (pendingAdditions s) (pendingRemovals s ++ [d]).

Definition removeFdCallback (d : Z) (s : InternalRunLoop) : InternalRunLoop :=
  mkLoop (erase_remove_if (fun cb : Z * Cb => fst cb =? d) (fdReadCallbacks s))
         (erase_remove_if (fun pfd => fd pfd =? d) (pfds s))
         (pendingAdditions s) (pendingRemovals s).

Definition mergeAddition (s : InternalRunLoop) (addition : Z * Cb * pollfd)
  : InternalRunLoop :=
  let '(d, cb, pfd) := addition in
  mkLoop (fdReadCallbacks s ++ [(d, cb)]) (pfds s ++ [pfd])
         (pendingAdditions s) (pendingRemovals s).

Definition applyPendingChanges (s : InternalRunLoop)
  : bool * InternalRunLoop :=
  if empty (pendingAdditions s) && empty (pendingRemovals s) then (false, s)
  else
    let s1 := fold_left mergeAddition (pendingAdditions s) s in
    let s2 := fold_left (fun acc d => removeFdCallback d acc)
                        (pendingRemovals s) s1 in
    (true, mkLoop (fdReadCallbacks s2) (pfds s2) [] []).

Definition applyCall (s : InternalRunLoop) (c : ApiCall) : InternalRunLoop :=
  match c with
  | Register d cb eventMask => registerFdCallback d cb eventMask s
  | Unregister d => unregisterFdCallback d s
  end.

(** [fdAndCallback.second (fd)] on the dispatch thread. *)
Definition callCallback (cb : Cb) (d : Z) (w : World) : World :=
  let (u, api) := invoke cb d (user w) in
  mkWorld (fold_left applyCall api (loop w)) u (calls w ++ [(d, cb)]).

Inductive Flow : Type :=
| ReturnNow (result : bool)
| GoOn (eventWasSent : bool).

(** The inner loop of [dispatchPendingEvents], over the callbacks that are
    left to visit.  The vector is only mutated by [applyPendingChanges], and
    the loop is left as soon as that reports a change. *)
Fixpoint forEachCallback (cbs : list (Z * Cb)) (d : Z) (w : World)
  (eventWasSent : bool) : Flow * World :=
  match cbs with
  | [] => (GoOn eventWasSent, w)
  | fdAndCallback :: rest =>
      if fst fdAndCallback =? d then
        let w1 := callCallback (snd fdAndCallback) d w in
        let (changed, s2) := applyPendingChanges (loop w1) in
        if changed then (ReturnNow true, set_loop s2 w1)
        else forEachCallback rest d (set_loop s2 w1) true
      else forEachCallback rest d w eventWasSent
  end.

(** The outer loop, over the entries of [pfds]: [visited] are those already
    passed, [todo] those from the iterator on. *)
Fixpoint forEachPfd (visited todo : list pollfd) (w : World)
  (eventWasSent : bool) : bool * World :=
  match todo with
  | [] => (eventWasSent, w)
  | pfd :: rest =>
      if revents pfd =? 0 then forEachPfd (visited ++ [pfd]) rest w eventWasSent
      else
        let pfd0 := mkPollfd (fd pfd) (events pfd) 0 in
        let w1 := set_loop (set_pfds (visited ++ pfd0 :: rest) (loop w)) w in
        match forEachCallback (fdReadCallbacks (loop w1)) (fd pfd) w1
                              eventWasSent with
        | (ReturnNow result, w2) => (result, w2)
        | (GoOn sent, w2) => forEachPfd (visited ++ [pfd0]) rest w2 sent
        end
  end.

Inductive Outcome : Type :=
| Done (result : bool) (w : World)
| Undefined (w : World).

Definition world_of (o : Outcome) : World :=
  match o with
  | Done _ w | Undefined w => w
  end.

(** [po] is the outcome of the zero-timeout [poll].  [Undefined w]: the
    behaviour is undefined from world [w] on. *)
Definition dispatchPendingEvents (po : PollOutcome) (w : World) : Outcome :=
  let w1 := set_loop (snd (applyPendingChanges (loop w))) w in
  match front (pfds (loop w1)) with
  | None => Undefined w1
  | Some _ =>
      let w2 := set_loop (set_pfds (write_revents (pfds (loop w1))
                                                  (poll_revents po))
                                   (loop w1)) w1 in
      if poll_ret po =? 0 then Done false w2
      else
        let (result, w3) := forEachPfd [] (pfds (loop w2)) w2 false in
        Done result w3
  end.

Definition sleepUntilNextEvent (timeoutMs : Z) (po : PollOutcome) (w : World)
  : Outcome :=
  match front (pfds (loop w)) with
  | None => Undefined w
  | Some _ =>
      Done true (set_loop (set_pfds (write_revents (pfds (loop w))
                                                   (poll_revents po))
                                    (loop w)) w)
  end.

(** One round of the dispatch thread: calls other threads have made on the
    run loop since the last pass, then one pass. *)
Record Round : Type := mkRound {
  staged : list ApiCall;
  outcome : PollOutcome
}.

Definition dispatchRound (r : Round) (w : World) : Outcome :=
  dispatchPendingEvents (outcome r)
    (set_loop (fold_left applyCall (staged r) (loop w)) w).

Fixpoint dispatchRounds (rs : list Round) (w : World) : Outcome :=
  match rs with
  | [] => Done false w
  | r :: rest =>
      match dispatchRound r w with
      | Done _ w1 => dispatchRounds rest w1
      | Undefined w1 => Undefined w1
      end
  end.

(** *** Vocabulary of the properties *)

Definition callback_fds (s : InternalRunLoop) : list Z :=
  map fst (fdReadCallbacks s).

Definition poll_fds (s : InternalRunLoop) : list Z := map fd (pfds s).

Definition addition_fds (s : InternalRunLoop) : list Z :=
  map (fun a : Z * Cb * pollfd => fst (fst a)) (pendingAdditions s).

(** The two live vectors list the same descriptors, and every staged
    addition carries the [pollfd] of its own descriptor. *)
Definition consistent (s : InternalRunLoop) : Prop :=
  callback_fds s = poll_fds s /\
  Forall (fun a : Z * Cb * pollfd => fd (snd a) = fst (fst a))
         (pendingAdditions s).

(** Descriptor [d] is neither live nor about to be. *)
Definition absent (d : Z) (s : InternalRunLoop) : Prop :=
  ~ In d (callback_fds s) /\ ~ In d (poll_fds s) /\ ~ In d (addition_fds s).

Definition registers (d : Z) (c : ApiCall) : Prop :=
  match c with
  | Register d' _ _ => d' = d
  | Unregister _ => False
  end.

(** What a sequence of calls stages. *)
Definition additions_of (api : list ApiCall) : list (Z * Cb * pollfd) :=
  flat_map (fun c => match c with
                     | Register d cb eventMask =>
                         [(d, cb, mkPollfd d eventMask 0)]
                     | Unregister _ => []
                     end) api.

Definition removals_of (api : list ApiCall) : list Z :=
  flat_map (fun c => match c with
                     | Register _ _ _ => []
                     | Unregister d => [d]
                     end) api.

(** The entries of [v] whose descriptor is none of [rems]. *)
Definition purge {A : Type} (key : A -> Z) (rems : list Z) (v : list A)
  : list A :=
  filter (fun x => negb (existsb (Z.eqb (key x)) rems)) v.

(** Descriptor [d] is polled, or staged to be, and not staged to go. *)
Definition keeps (d : Z) (s : InternalRunLoop) : Prop :=
  ~ In d (pendingRemovals s) /\
  (In d (poll_fds s) \/
   In d (map (fun a : Z * Cb * pollfd => fd (snd a)) (pendingAdditions s))).

Definition unregisters (d : Z) (c : ApiCall) : Prop :=
  match c with
  | Register _ _ _ => False
  | Unregister d' => d' = d
  end.

(** [pfd.revents = 0]. *)
Definition cleared (p : pollfd) : pollfd := mkPollfd (fd p) (events p) 0.

(** Two worlds that differ at most in the [revents] of their [pollfd]s. *)
Definition strip (p : pollfd) : Z * Z := (fd p, events p).

Definition same_but_revents (w w' : World) : Prop :=
  user w = user w' /\
  calls w = calls w' /\
  fdReadCallbacks (loop w) = fdReadCallbacks (loop w') /\
  map strip (pfds (loop w)) = map strip (pfds (loop w')) /\
  pendingAdditions (loop w) = pendingAdditions (loop w') /\
  pendingRemovals (loop w) = pendingRemovals (loop w').

(** *** The pass as the design document words it

    "For each descriptor with a ready event, [...] invoke every registered
    callback whose descriptor matches": the invocations a pass is to make,
    in order, if no change intervenes. *)
Definition readyCallbacks (cbs : list (Z * Cb)) (pfd : pollfd)
  : list (Z * Cb) :=
  if revents pfd =? 0 then [] else filter (fun c => fst c =? fd pfd) cbs.

Definition candidates (s : InternalRunLoop) : list (Z * Cb) :=
  flat_map (readyCallbacks (fdReadCallbacks s)) (pfds s).

(** "After each invocation, re-apply pending changes, and if any change was
    applied, abort the remaining iteration immediately and return
    event/retry." *)
Fixpoint invokeUntilChange (cands : list (Z * Cb)) (w : World)
  (eventWasSent : bool) : Flow * World :=
  match cands with
  | [] => (GoOn eventWasSent, w)
  | c :: rest =>
      let w1 := callCallback (snd c) (fst c) w in
      let (changed, s2) := applyPendingChanges (loop w1) in
      if changed then (ReturnNow true, set_loop s2 w1)
      else invokeUntilChange rest (set_loop s2 w1) true
  end.

Definition result_of (f : Flow) : bool :=
  match f with
  | ReturnNow result => result
  | GoOn eventWasSent => eventWasSent
  end.

(** "(1) apply pending changes; (2) perform a non-blocking multiplex wait
    over the live set; if nothing is ready, return no event; (3) [...]
    Returns event dispatched if any callback ran." *)
Definition spec_dispatchPending (po : PollOutcome) (w : World) : bool * World :=
  let w1 := set_loop (snd (applyPendingChanges (loop w))) w in
  let w2 := set_loop (set_pfds (write_revents (pfds (loop w1))
                                              (poll_revents po))
                               (loop w1)) w1 in
  if poll_ret po =? 0 then (false, w2)
  else
    let (f, w3) := invokeUntilChange (candidates (loop w2)) w2 false in
    (result_of f, w3).

End WithCallbacks.

Arguments callback_fds {Cb} _.
Arguments poll_fds {Cb} _.
Arguments addition_fds {Cb} _.
Arguments consistent {Cb} _.
Arguments absent {Cb} _ _.
Arguments registers {Cb} _ _.
Arguments keeps {Cb} _ _.
Arguments unregisters {Cb} _ _.
Arguments additions_of {Cb} _.
Arguments removals_of {Cb} _.
Arguments same_but_revents {Cb User} _ _.
Arguments readyCallbacks {Cb} _ _.
Arguments candidates {Cb} _.
Arguments invokeUntilChange {Cb User} _ _ _ _.
Arguments spec_dispatchPending {Cb User} _ _ _.
Arguments Register {Cb} _ _ _.
Arguments Unregister {Cb} _.
Arguments fdReadCallbacks {Cb} _.
Arguments pfds {Cb} _.
Arguments pendingAdditions {Cb} _.
Arguments pendingRemovals {Cb} _.
Arguments mkLoop {Cb} _ _ _ _.
Arguments loop {Cb User} _.
Arguments user {Cb User} _.
Arguments calls {Cb User} _.
Arguments mkWorld {Cb User} _ _ _.
Arguments set_loop {Cb User} _ _.
Arguments set_pfds {Cb} _ _.
Arguments construct {Cb}.
Arguments registerFdCallback {Cb} _ _ _ _.
Arguments unregisterFdCallback {Cb} _ _.
Arguments removeFdCallback {Cb} _ _.
Arguments mergeAddition {Cb} _ _.
Arguments applyPendingChanges {Cb} _.
Arguments applyCall {Cb} _ _.
Arguments callCallback {Cb User} _ _ _ _.
Arguments forEachCallback {Cb User} _ _ _ _ _.
Arguments forEachPfd {Cb User} _ _ _ _ _.
Arguments Done {Cb User} _ _.
Arguments Undefined {Cb User} _.
Arguments world_of {Cb User} _.
Arguments dispatchPendingEvents {Cb User} _ _ _.
Arguments sleepUntilNextEvent {Cb User} _ _ _.
Arguments mkRound {Cb} _ _.
Arguments staged {Cb} _.
Arguments outcome {Cb} _.
Arguments dispatchRound {Cb User} _ _ _.
Arguments dispatchRounds {Cb User} _ _ _.

End RunLoop.

(** * MessageManager *)

Module Manager.

Definition SIGINT : Z := 2.

Section WithApplication.

Variable Msg : Type.
Variable Cb : Type.
Variable User : Type.
Variable invoke : Cb -> Z -> User -> User * list (RunLoop.ApiCall Cb).

(** Modelled from the spec: [JUCEApplicationBase::quit] is defined outside
    this file; it is to "request application termination", a change of the
    application's own state. *)
Variable App : Type.
Variable quit : App -> App.

(** The objects with static storage: the two singletons ([None] when
    [getInstanceWithoutCreating] yields [nullptr]), the flag of
    [LinuxErrorHandling] and the application. *)
Record Process : Type := mkProcess {
  messageQueue : option (MessageQueue.InternalMessageQueue Msg);
  runLoop : option (RunLoop.World Cb User);
  keyboardBreakOccurred : bool;
  application : App
}.

Definition set_messageQueue (q : option (MessageQueue.InternalMessageQueue Msg))
  (p : Process) : Process :=
  mkProcess q (runLoop p) (keyboardBreakOccurred p) (application p).

Definition set_runLoop (w : option (RunLoop.World Cb User)) (p : Process)
  : Process :=
  mkProcess (messageQueue p) w (keyboardBreakOccurred p) (application p).

Definition set_application (a : App) (p : Process) : Process :=
  mkProcess (messageQueue p) (runLoop p) (keyboardBreakOccurred p) a.

Definition keyboardBreakSignalHandler (sig : Z) (p : Process) : Process :=
  if sig =? SIGINT then
    mkProcess (messageQueue p) (runLoop p) true (application p)
  else p.

Definition postMessageToSystemQueue (message : Msg) (p : Process)
  : bool * Process :=
  match messageQueue p with
  | Some q =>
      (true, set_messageQueue (Some (MessageQueue.postMessage message q)) p)
  | None => (false, p)
  end.

(** What the environment does during one turn of the [for (;;)] loop of
    [dispatchNextMessageOnSystemQueue]: the signals delivered before the flag
    is read, and the outcomes of the two [poll] calls. *)
Record Turn : Type := mkTurn {
  signals : list Z;
  dispatchPoll : RunLoop.PollOutcome;
  sleepPoll : RunLoop.PollOutcome
}.

Inductive Result : Type :=
| Returned (result : bool) (p : Process)
| Looping (p : Process)
| UndefinedBehaviour (p : Process).

(** The list of turns is the fuel: [Looping p] says that the function is
    still inside its loop, in state [p], when the turns are used up. *)
Fixpoint dispatchNextMessageOnSystemQueue (returnIfNoPendingMessages : bool)
  (turns : list Turn) (p : Process) : Result :=
  match turns with
  | [] => Looping p
  | t :: rest =>
      let p0 := fold_left (fun acc sig => keyboardBreakSignalHandler sig acc)
                          (signals t) p in
      let p1 := if keyboardBreakOccurred p0
                then set_application (quit (application p0)) p0 else p0 in
      match runLoop p1 with
      | Some w =>
          match RunLoop.dispatchPendingEvents invoke (dispatchPoll t) w with
          | RunLoop.Undefined w1 => UndefinedBehaviour (set_runLoop (Some w1) p1)
          | RunLoop.Done true w1 => Returned true (set_runLoop (Some w1) p1)
          | RunLoop.Done false w1 =>
              if returnIfNoPendingMessages
              then Returned false (set_runLoop (Some w1) p1)
              else
                match RunLoop.sleepUntilNextEvent 2000 (sleepPoll t) w1 with
                | RunLoop.Undefined w2 =>
                    UndefinedBehaviour (set_runLoop (Some w2) p1)
                | RunLoop.Done _ w2 =>
                    dispatchNextMessageOnSystemQueue returnIfNoPendingMessages
                      rest (set_runLoop (Some w2) p1)
                end
          end
      | None =>
          dispatchNextMessageOnSystemQueue returnIfNoPendingMessages rest p1
      end
  end.

End WithApplication.

Arguments messageQueue {Msg Cb User App} _.
Arguments runLoop {Msg Cb User App} _.
Arguments keyboardBreakOccurred {Msg Cb User App} _.
Arguments application {Msg Cb User App} _.
Arguments mkProcess {Msg Cb User App} _ _ _ _.
Arguments set_messageQueue {Msg Cb User App} _ _.
Arguments keyboardBreakSignalHandler {Msg Cb User App} _ _.
Arguments postMessageToSystemQueue {Msg Cb User App} _ _.
Arguments Returned {Msg Cb User App} _ _.
Arguments Looping {Msg Cb User App} _.
Arguments UndefinedBehaviour {Msg Cb User App} _.
Arguments dispatchNextMessageOnSystemQueue {Msg Cb User} _ {App} _ _ _ _.

End Manager.

(** * Initialisation, shutdown and the registration interface *)

Module Lifecycle.

Section WithHost.

Variable Msg : Type.
Variable Cb : Type.
Variable User : Type.
Variable App : Type.

(** The lambda that the constructor of [InternalMessageQueue] hands to the
    run loop, as a callback value. *)
Variable drainLambda : Cb.

(** The default [eventMask] of [LinuxEventLoop::registerFdCallback], which
    is declared outside this file. *)
Variable POLLIN : Z.

(** The process together with what the system keeps for it: whether the
    handler of [SIGINT] is installed, and the descriptors closed so far. *)
Record Host : Type := mkHost {
  process : Manager.Process Msg Cb User App;
  sigintHandlerInstalled : bool;
  closed : list Z
}.

Definition set_process (p : Manager.Process Msg Cb User App) (h : Host)
  : Host :=
  mkHost p (sigintHandlerInstalled h) (closed h).

Definition LinuxEventLoop_registerFdCallback (d : Z) (readCallback : Cb)
  (eventMask : Z) (p : Manager.Process Msg Cb User App)
  : Manager.Process Msg Cb User App :=
  match Manager.runLoop p with
  | Some w =>
      Manager.set_runLoop Msg Cb User App
        (Some (RunLoop.set_loop
                 (RunLoop.registerFdCallback d readCallback eventMask
                                             (RunLoop.loop w)) w)) p
  | None => p
  end.

Definition LinuxEventLoop_unregisterFdCallback (d : Z)
  (p : Manager.Process Msg Cb User App) : Manager.Process Msg Cb User App :=
  match Manager.runLoop p with
  | Some w =>
      Manager.set_runLoop Msg Cb User App
        (Some (RunLoop.set_loop
                 (RunLoop.unregisterFdCallback d (RunLoop.loop w)) w)) p
  | None => p
  end.

Definition LinuxEventLoop_call (p : Manager.Process Msg Cb User App)
  (c : RunLoop.ApiCall Cb) : Manager.Process Msg Cb User App :=
  match c with
  | RunLoop.Register d cb eventMask =>
      LinuxEventLoop_registerFdCallback d cb eventMask p
  | RunLoop.Unregister d => LinuxEventLoop_unregisterFdCallback d p
  end.

(** The function at the end of the file; [jassertfalse] and the empty
    vector when there is no run loop. *)
Definition getFdReadCallbacks (p : Manager.Process Msg Cb User App)
  : list (Z * Cb) :=
  match Manager.runLoop p with
  | Some w => RunLoop.fdReadCallbacks (RunLoop.loop w)
  | None => []
  end.

Definition installKeyboardBreakHandler (h : Host) : Host :=
  mkHost (process h) true (closed h).

(** Modelled from the spec: the macros [JUCE_DECLARE_SINGLETON] and
    [JUCE_IMPLEMENT_SINGLETON] are defined outside this file.  The two
    objects are "singletons, each with process-wide lifetime bound to the
    host application's init/shutdown": [getInstance] constructs the object
    when there is none, [deleteInstance] destroys it when there is one.
    [u] is the state of the code behind the callbacks when the run loop
    comes to be, [pipe] what [socketpair] stores in [msgpipe]. *)
Definition InternalRunLoop_getInstance (u : User)
  (p : Manager.Process Msg Cb User App) : Manager.Process Msg Cb User App :=
  match Manager.runLoop p with
  | Some _ => p
  | None =>
      Manager.set_runLoop Msg Cb User App
        (Some (RunLoop.mkWorld RunLoop.construct u [])) p
  end.

(** The constructor of [InternalMessageQueue]: [socketpair], then the
    registration of the read handle with the drain lambda. *)
Definition InternalMessageQueue_constructor (pipe : Z * Z)
  (p : Manager.Process Msg Cb User App)
  : MessageQueue.InternalMessageQueue Msg * Manager.Process Msg Cb User App :=
  let q := MessageQueue.construct pipe in
  (q, LinuxEventLoop_registerFdCallback (MessageQueue.getReadHandle Msg q)
                                        drainLambda POLLIN p).

Definition InternalMessageQueue_getInstance (pipe : Z * Z)
  (p : Manager.Process Msg Cb User App) : Manager.Process Msg Cb User App :=
  match Manager.messageQueue p with
  | Some _ => p
  | None =>
      let (q, p1) := InternalMessageQueue_constructor pipe p in
      Manager.set_messageQueue (Some q) p1
  end.

(** The destructor of [InternalMessageQueue]. *)
Definition InternalMessageQueue_destructor
  (q : MessageQueue.InternalMessageQueue Msg) (h : Host) : Host :=
  let p1 := LinuxEventLoop_unregisterFdCallback
              (MessageQueue.getReadHandle Msg q) (process h) in
  mkHost (Manager.set_messageQueue None p1)
         (sigintHandlerInstalled h)
         (closed h ++ [MessageQueue.getReadHandle Msg q;
                       MessageQueue.getWriteHandle Msg q]).

Definition InternalMessageQueue_deleteInstance (h : Host) : Host :=
  match Manager.messageQueue (process h) with
  | Some q => InternalMessageQueue_destructor q h
  | None => h
  end.

Definition InternalRunLoop_deleteInstance (h : Host) : Host :=
  set_process (Manager.set_runLoop Msg Cb User App None (process h)) h.

Definition doPlatformSpecificInitialisation (isStandaloneApp : bool)
  (u : User) (pipe : Z * Z) (h : Host) : Host :=
  let h1 := if isStandaloneApp then installKeyboardBreakHandler h else h in
  let p1 := InternalRunLoop_getInstance u (process h1) in
  let p2 := InternalMessageQueue_getInstance pipe p1 in
  set_process p2 h1.

Definition doPlatformSpecificShutdown (h : Host) : Host :=
  InternalRunLoop_deleteInstance (InternalMessageQueue_deleteInstance h).

End WithHost.

Arguments process {Msg Cb User App} _.
Arguments sigintHandlerInstalled {Msg Cb User App} _.
Arguments closed {Msg Cb User App} _.
Arguments mkHost {Msg Cb User App} _ _ _.
Arguments LinuxEventLoop_registerFdCallback {Msg Cb User App} _ _ _ _.
Arguments LinuxEventLoop_unregisterFdCallback {Msg Cb User App} _ _.
Arguments LinuxEventLoop_call {Msg Cb User App} _ _.
Arguments getFdReadCallbacks {Msg Cb User App} _.
Arguments doPlatformSpecificInitialisation {Msg Cb User App} _ _ _ _ _ _.
Arguments doPlatformSpecificShutdown {Msg Cb User App} _.

End Lifecycle.

(** * A small instance

    Two messages, of which [0] raises, and two callbacks, of which [true]
    unregisters the descriptor it is called on. *)

Module Sample.

Definition messageCallback (m : nat) : list nat * MessageQueue.Completion :=
  ([], match m with
       | O => MessageQueue.Throws
       | S _ => MessageQueue.Returns
       end).

Definition twoQueued : MessageQueue.InternalMessageQueue nat :=
  MessageQueue.postAll [0%nat; 1%nat] (MessageQueue.construct (3, 4)).

Definition invoke (cb : bool) (d : Z) (u : unit)
  : unit * list (RunLoop.ApiCall bool) :=
  (u, if cb then [RunLoop.Unregister d] else []).

(** Descriptor 5 registered with the self-unregistering callback and merged,
    and a wait that reports it ready. *)
Definition oneLive : RunLoop.World bool unit :=
  RunLoop.mkWorld
    (snd (RunLoop.applyPendingChanges
            (RunLoop.registerFdCallback 5 true 1 RunLoop.construct)))
    tt [].

Definition ready : RunLoop.PollOutcome := RunLoop.mkPoll 1 [1].

Definition noSingletons : Manager.Process nat bool unit unit :=
  Manager.mkProcess None None false tt.

Definition quit (a : unit) : unit := a.

Definition interrupted : Manager.Turn :=
  Manager.mkTurn [Manager.SIGINT] ready ready.

(** A turn in which no signal arrives and both waits find nothing. *)
Definition idle : Manager.Turn :=
  Manager.mkTurn [] (RunLoop.mkPoll 0 [0]) (RunLoop.mkPoll 0 [0]).

(** Callbacks that make no call on the run loop, and descriptor 5 live
    with one of them. *)
Definition quietInvoke (cb : bool) (d : Z) (u : unit)
  : unit * list (RunLoop.ApiCall bool) :=
  (u, []).

Definition quietLive : RunLoop.World bool unit :=
  RunLoop.mkWorld
    (snd (RunLoop.applyPendingChanges
            (RunLoop.registerFdCallback 5 false 1 RunLoop.construct)))
    tt [].

(** Descriptor 5 registered twice with a quiet callback and merged, and a
    wait that reports both of its entries ready. *)
Definition twiceLive : RunLoop.World bool unit :=
  RunLoop.mkWorld
    (snd (RunLoop.applyPendingChanges
            (RunLoop.registerFdCallback 5 false 1
               (RunLoop.registerFdCallback 5 false 1 RunLoop.construct))))
    tt [].

Definition bothReady : RunLoop.PollOutcome := RunLoop.mkPoll 2 [1; 1].

(** A process whose queue exists and holds two messages. *)
Definition queued : Manager.Process nat bool unit unit :=
  Manager.mkProcess (Some twoQueued) None false tt.

Definition running : Manager.Process nat bool unit unit :=
  Manager.mkProcess None (Some oneLive) false tt.

Definition breaking : Manager.Process nat bool unit unit :=
  Manager.mkProcess None None true tt.

Definition cold : Lifecycle.Host nat bool unit unit :=
  Lifecycle.mkHost noSingletons false [].

End Sample.

(** * Properties *)

Lemma wrap_int_small (z : Z) : is_int z -> wrap_int z = z.
Proof.
  unfold is_int, wrap_int; intros H.
  rewrite Z.mod_small; lia.
Qed.

(** ** The message queue *)

Module QueueProperties.

Import MessageQueue.

Section Queue.

Variable Msg : Type.
Variable messageCallback : Msg -> list Msg * Completion.

Abbreviation IMQ := (InternalMessageQueue Msg).

Lemma removeAndReturn_head (q : list Msg) :
  removeAndReturn 0 q =
  match q with
  | [] => (None, [])
  | m :: rest => (Some m, rest)
  end.
Proof. destruct q; reflexivity. Qed.

Lemma queue_postMessage (m : Msg) (s : IMQ) :
  queue (postMessage m s) = queue s ++ [m].
Proof.
  unfold postMessage; cbn.
  destruct (bytesInSocket s <? maxBytesInSocketQueue); reflexivity.
Qed.

Lemma queue_postAll (msgs : list Msg) (s : IMQ) :
  queue (postAll msgs s) = queue s ++ msgs.
Proof.
  revert s; induction msgs as [|m msgs IH]; intros s; cbn.
  - now rewrite app_nil_r.
  - change (queue (postAll msgs (postMessage m s)) = queue s ++ m :: msgs).
    rewrite IH, queue_postMessage, <- app_assoc; reflexivity.
Qed.

Lemma popNextMessage_result (fd : Z) (s : IMQ) :
  fst (popNextMessage fd s) = fst (removeAndReturn 0 (queue s)) /\
  queue (snd (popNextMessage fd s)) = snd (removeAndReturn 0 (queue s)).
Proof.
  unfold popNextMessage, popNextMessage_remove, popNextMessage_count.
  destruct (0 <? bytesInSocket s); cbn [queue emit set_bytesInSocket];
    rewrite removeAndReturn_head; destruct (queue s);
    split; reflexivity.
Qed.

Lemma popNextMessage_cons (fd : Z) (s : IMQ) (m : Msg) (q : list Msg) :
  queue s = m :: q ->
  fst (popNextMessage fd s) = Some m /\ queue (snd (popNextMessage fd s)) = q.
Proof.
  intros Hq. destruct (popNextMessage_result fd s) as [H1 H2].
  rewrite H1, H2, Hq; cbn; split; reflexivity.
Qed.

Lemma popNextMessage_nil (fd : Z) (s : IMQ) :
  queue s = [] ->
  fst (popNextMessage fd s) = None /\ queue (snd (popNextMessage fd s)) = [].
Proof.
  intros Hq. destruct (popNextMessage_result fd s) as [H1 H2].
  rewrite H1, H2, Hq; cbn; split; reflexivity.
Qed.

Lemma popMany_queue (fd : Z) (q : list Msg) :
  forall s : IMQ, queue s = q ->
  fst (popMany (length q) fd s) = map Some q /\
  queue (snd (popMany (length q) fd s)) = [].
Proof.
  induction q as [|m q IH]; intros s Hq; cbn.
  - split; [reflexivity | assumption].
  - destruct (popNextMessage_cons fd s m q Hq) as [H1 H2].
    destruct (popNextMessage fd s) as [r s1]; cbn in H1, H2; subst r.
    destruct (IH s1 H2) as [H3 H4].
    destruct (popMany (length q) fd s1) as [rs s2]; cbn in *.
    split; [now rewrite H3 | assumption].
Qed.

Lemma popped_exec (ops : list (Op Msg)) :
  forall s : IMQ, popped ops s ++ queue (exec ops s) = queue s ++ posted ops.
Proof.
  induction ops as [|[m|fd|] ops IH]; intros s; cbn.
  - now rewrite app_nil_r.
  - change (popped ops (postMessage m s) ++ queue (exec ops (postMessage m s))
            = queue s ++ m :: posted ops).
    rewrite IH, queue_postMessage, <- app_assoc; reflexivity.
  - change (popped ops (popNextMessage_count fd s)
            ++ queue (exec ops (popNextMessage_count fd s))
            = queue s ++ posted ops).
    rewrite IH. unfold popNextMessage_count.
    destruct (0 <? bytesInSocket s); reflexivity.
  - change (fold_left step ops (snd (popNextMessage_remove s)))
      with (exec ops (snd (popNextMessage_remove s))).
    unfold popNextMessage_remove. rewrite removeAndReturn_head.
    destruct (queue s) as [|m q] eqn:Hq; cbn [fst snd].
    + rewrite IH. reflexivity.
    + cbn. rewrite IH. reflexivity.
Qed.

(** C1.  Whatever the queue holds, after any sequence of posts the pops
    return first what was queued and then the posted messages, each once and
    in the order of the posts, and then report an empty queue.  More
    generally, in every interleaving of posts and pops the messages popped so
    far followed by those still queued are the messages queued at the start
    followed by those posted, in order. *)
Theorem fifo_order (s : IMQ) (msgs : list Msg) (fd : Z) :
  let s1 := postAll msgs s in
  let n := length (queue s ++ msgs) in
  fst (popMany n fd s1) = map Some (queue s ++ msgs) /\
  fst (popNextMessage fd (snd (popMany n fd s1))) = None /\
  forall ops : list (Op Msg),
    popped ops s ++ queue (exec ops s) = queue s ++ posted ops.
Proof.
  intros s1 n.
  assert (Hq : queue s1 = queue s ++ msgs) by apply queue_postAll.
  destruct (popMany_queue fd (queue s ++ msgs) s1 Hq) as [H1 H2].
  split; [exact H1 | split].
  - apply popNextMessage_nil; exact H2.
  - intros ops; apply popped_exec.
Qed.

(** *** The wakeup-byte counter *)

Lemma bytes_ok_is_int (s : IMQ) : bytes_ok s -> is_int (bytesInSocket s).
Proof. unfold bytes_ok, is_int, maxBytesInSocketQueue; lia. Qed.

Lemma bytesInSocket_postMessage (m : Msg) (s : IMQ) :
  is_int (bytesInSocket s) ->
  bytesInSocket (postMessage m s) =
  if bytesInSocket s <? maxBytesInSocketQueue
  then bytesInSocket s + 1 else bytesInSocket s.
Proof.
  intros Hi. unfold postMessage. cbn [bytesInSocket set_queue].
  destruct (bytesInSocket s <? maxBytesInSocketQueue) eqn:E;
    cbn [bytesInSocket set_queue set_bytesInSocket emit]; [|reflexivity].
  apply Z.ltb_lt in E. apply wrap_int_small.
  unfold is_int, maxBytesInSocketQueue in *; lia.
Qed.

Lemma bytesInSocket_popNextMessage (fd : Z) (s : IMQ) :
  is_int (bytesInSocket s) ->
  bytesInSocket (snd (popNextMessage fd s)) =
  if 0 <? bytesInSocket s then bytesInSocket s - 1 else bytesInSocket s.
Proof.
  intros Hi.
  unfold popNextMessage, popNextMessage_remove, popNextMessage_count.
  destruct (0 <? bytesInSocket s) eqn:E;
    cbn [queue emit set_bytesInSocket]; rewrite removeAndReturn_head;
    destruct (queue s); cbn [snd bytesInSocket set_queue]; try reflexivity;
    apply Z.ltb_lt in E; apply wrap_int_small; unfold is_int in *; lia.
Qed.

Lemma bytes_ok_postMessage (m : Msg) (s : IMQ) :
  bytes_ok s -> bytes_ok (postMessage m s).
Proof.
  intros H. unfold bytes_ok in *.
  rewrite bytesInSocket_postMessage by (apply bytes_ok_is_int; exact H).
  destruct (bytesInSocket s <? maxBytesInSocketQueue) eqn:E; [|lia].
  apply Z.ltb_lt in E; lia.
Qed.

Lemma bytes_ok_popNextMessage (fd : Z) (s : IMQ) :
  bytes_ok s -> bytes_ok (snd (popNextMessage fd s)).
Proof.
  intros H. unfold bytes_ok in *.
  rewrite bytesInSocket_popNextMessage by (apply bytes_ok_is_int; exact H).
  destruct (0 <? bytesInSocket s) eqn:E; [|lia].
  apply Z.ltb_lt in E; lia.
Qed.

Lemma bytesInSocket_remove (s : IMQ) :
  bytesInSocket (snd (popNextMessage_remove s)) = bytesInSocket s.
Proof.
  unfold popNextMessage_remove.
  destruct (removeAndReturn 0 (queue s)); reflexivity.
Qed.

Lemma bytes_ok_count (fd : Z) (s : IMQ) :
  bytes_ok s -> bytes_ok (popNextMessage_count fd s).
Proof.
  intros H. pose proof (bytes_ok_popNextMessage fd s H) as Hp.
  unfold bytes_ok in *. unfold popNextMessage in Hp.
  rewrite bytesInSocket_remove in Hp. exact Hp.
Qed.

Lemma bytes_ok_step (s : IMQ) (op : Op Msg) : bytes_ok s -> bytes_ok (step s op).
Proof.
  destruct op; cbn;
    [apply bytes_ok_postMessage | apply bytes_ok_count |].
  unfold bytes_ok. now rewrite bytesInSocket_remove.
Qed.

Lemma bytes_ok_exec (ops : list (Op Msg)) :
  forall s : IMQ, bytes_ok s -> bytes_ok (exec ops s).
Proof.
  induction ops as [|op ops IH]; intros s H; cbn; [exact H|].
  apply IH, bytes_ok_step, H.
Qed.

Lemma bytes_ok_postAll (msgs : list Msg) :
  forall s : IMQ, bytes_ok s -> bytes_ok (postAll msgs s).
Proof.
  induction msgs as [|m msgs IH]; intros s H; cbn; [exact H|].
  apply IH, bytes_ok_postMessage, H.
Qed.

Lemma bytes_ok_emit (e : Event Msg) (s : IMQ) : bytes_ok s -> bytes_ok (emit Msg e s).
Proof. intros H; exact H. Qed.

Lemma bytes_ok_runMessage (m : Msg) (s : IMQ) :
  bytes_ok s ->
  bytes_ok (snd (tryInvoke messageCallback m s)).
Proof.
  intros H. unfold tryInvoke, runMessage.
  destruct (messageCallback m) as [posts c].
  assert (bytes_ok (postAll posts (emit Msg (Invoked m) s)))
    by (apply bytes_ok_postAll, bytes_ok_emit, H).
  destruct c; cbn; assumption.
Qed.

Lemma bytes_ok_drainCallback (fuel : nat) (fd : Z) :
  forall s : IMQ,
  bytes_ok s -> bytes_ok (state_of (drainCallback messageCallback fuel fd s)).
Proof.
  induction fuel as [|k IH]; intros s H; cbn [drainCallback]; [exact H|].
  pose proof (bytes_ok_popNextMessage fd s H) as Hp.
  destruct (popNextMessage fd s) as [[m|] s1]; cbn [snd] in Hp; [|exact Hp].
  pose proof (bytes_ok_runMessage m s1 Hp) as Hr.
  destruct (tryInvoke messageCallback m s1)
    as [[|] s2]; cbn [snd] in Hr; [apply IH, Hr | exact Hr].
Qed.

(** C5.  From construction on, in every interleaving of posts and pops, the
    counter stays between 0 and 128: each operation preserves the bound,
    [postMessage] adds one exactly when the counter is below 128,
    [popNextMessage] takes one off exactly when it is positive, and a run of
    the drain callback, with whatever its messages post, preserves it too. *)
Theorem bytesInSocket_within_budget (pipe : Z * Z) (ops : list (Op Msg)) :
  bytes_ok (exec ops (construct pipe)) /\
  (forall (s : IMQ) (op : Op Msg), bytes_ok s -> bytes_ok (step s op)) /\
  (forall (s : IMQ) (m : Msg), bytes_ok s ->
     bytesInSocket (postMessage m s) =
     if bytesInSocket s <? 128 then bytesInSocket s + 1 else bytesInSocket s) /\
  (forall (s : IMQ) (fd : Z), bytes_ok s ->
     bytesInSocket (snd (popNextMessage fd s)) =
     if 0 <? bytesInSocket s then bytesInSocket s - 1 else bytesInSocket s) /\
  (forall (fuel : nat) (fd : Z) (s : IMQ), bytes_ok s ->
     bytes_ok (state_of (drainCallback messageCallback fuel fd s))).
Proof.
  split; [|split; [|split; [|split]]].
  - apply bytes_ok_exec. unfold bytes_ok, maxBytesInSocketQueue; cbn; lia.
  - intros s op; apply bytes_ok_step.
  - intros s m H; apply bytesInSocket_postMessage, bytes_ok_is_int, H.
  - intros s fd H; apply bytesInSocket_popNextMessage, bytes_ok_is_int, H.
  - intros fuel fd s; apply bytes_ok_drainCallback.
Qed.

(** *** The log *)

Lemma invocations_app (l1 l2 : list (Event Msg)) :
  invocations (l1 ++ l2) = invocations l1 ++ invocations l2.
Proof. unfold invocations; apply flat_map_app. Qed.

Lemma writes_app (l1 l2 : list (Event Msg)) :
  writes (l1 ++ l2) = writes l1 ++ writes l2.
Proof. unfold writes; apply filter_app. Qed.

Lemma log_postMessage (m : Msg) (s : IMQ) :
  log (postMessage m s) =
  log s ++ (if bytesInSocket s <? maxBytesInSocketQueue
            then [SysWrite (fst (msgpipe s)) 255] else []).
Proof.
  unfold postMessage; cbn [bytesInSocket set_queue].
  destruct (bytesInSocket s <? maxBytesInSocketQueue); cbn.
  - reflexivity.
  - now rewrite app_nil_r.
Qed.

Lemma log_postAll (msgs : list Msg) :
  forall s : IMQ,
  exists w, log (postAll msgs s) = log s ++ w /\ invocations w = [].
Proof.
  induction msgs as [|m msgs IH]; intros s; cbn.
  - exists []; now rewrite app_nil_r.
  - destruct (IH (postMessage m s)) as [w [Hw Hq]].
    change (fold_left (fun acc m0 => postMessage m0 acc) msgs (postMessage m s))
      with (postAll msgs (postMessage m s)).
    rewrite Hw, log_postMessage, <- app_assoc.
    eexists; split; [reflexivity|].
    rewrite invocations_app, Hq, app_nil_r.
    destruct (bytesInSocket s <? maxBytesInSocketQueue); reflexivity.
Qed.

Lemma log_popNextMessage (fd : Z) (s : IMQ) :
  log (snd (popNextMessage fd s)) =
  log s ++ (if 0 <? bytesInSocket s then [SysRead fd] else []).
Proof.
  unfold popNextMessage, popNextMessage_remove, popNextMessage_count.
  destruct (0 <? bytesInSocket s);
    cbn [queue emit set_bytesInSocket]; rewrite removeAndReturn_head;
    destruct (queue s); cbn; try reflexivity; now rewrite app_nil_r.
Qed.

Lemma invocations_popNextMessage (fd : Z) (s : IMQ) :
  invocations (log (snd (popNextMessage fd s))) = invocations (log s).
Proof.
  rewrite log_popNextMessage, invocations_app.
  destruct (0 <? bytesInSocket s); cbn; now rewrite app_nil_r.
Qed.

Abbreviation body := (tryInvoke messageCallback).

Lemma body_returns (m : Msg) (s : IMQ) : fst (body m s) = Returns.
Proof.
  unfold tryInvoke, runMessage. destruct (messageCallback m) as [posts [|]];
    reflexivity.
Qed.

Lemma queue_body (m : Msg) (s : IMQ) :
  queue (snd (body m s)) = queue s ++ fst (messageCallback m).
Proof.
  unfold tryInvoke, runMessage. destruct (messageCallback m) as [posts [|]];
    cbn [JUCE_CATCH_EXCEPTION snd fst emit queue]; rewrite queue_postAll;
    reflexivity.
Qed.

Lemma log_body (m : Msg) (s : IMQ) :
  exists w,
    log (snd (body m s)) =
    log s ++ Invoked m :: w ++
      match snd (messageCallback m) with
      | Throws => [Reported m]
      | Returns => []
      end /\
    invocations w = [].
Proof.
  unfold tryInvoke, runMessage. destruct (messageCallback m) as [posts c].
  destruct (log_postAll posts (emit Msg (Invoked m) s)) as [w [Hw Hq]].
  exists w; split; [|exact Hq].
  destruct c; cbn [JUCE_CATCH_EXCEPTION snd fst emit log]; rewrite Hw; cbn;
    rewrite <- !app_assoc; cbn; rewrite ?app_nil_r; reflexivity.
Qed.

Lemma invocations_body (m : Msg) (s : IMQ) :
  invocations (log (snd (body m s))) = invocations (log s) ++ [m].
Proof.
  destruct (log_body m s) as [w [Hw Hq]]. rewrite Hw.
  assert (Hc : forall l : list (Event Msg),
             invocations (Invoked m :: l) = m :: invocations l)
    by reflexivity.
  rewrite invocations_app, Hc, invocations_app, Hq.
  destruct (snd (messageCallback m)); reflexivity.
Qed.

Lemma drainCallback_step (k : nat) (fd : Z) (s : IMQ) (m : Msg)
  (q : list Msg) :
  queue s = m :: q ->
  drainCallback messageCallback (S k) fd s =
  drainCallback messageCallback k fd
                (snd (body m (snd (popNextMessage fd s)))).
Proof.
  intros Hq. cbn [drainCallback].
  destruct (popNextMessage_cons fd s m q Hq) as [H1 _].
  destruct (popNextMessage fd s) as [r s1]; cbn [fst snd] in *; subst r.
  pose proof (body_returns m s1) as Hr.
  destruct (body m s1) as [c s2]; cbn [fst snd] in *; subst c; reflexivity.
Qed.

Lemma drainCallback_empty (k : nat) (fd : Z) (s : IMQ) :
  queue s = [] ->
  drainCallback messageCallback (S k) fd s = Drained (snd (popNextMessage fd s)).
Proof.
  intros Hq. cbn [drainCallback].
  destruct (popNextMessage_nil fd s Hq) as [H1 _].
  destruct (popNextMessage fd s) as [r s1]; cbn [fst snd] in *; subst r.
  reflexivity.
Qed.

Lemma drainCallback_never_unwinds (fuel : nat) (fd : Z) :
  forall (s s' : IMQ), drainCallback messageCallback fuel fd s <> Unwound s'.
Proof.
  induction fuel as [|k IH]; intros s s'; [discriminate|].
  destruct (queue s) as [|m q] eqn:Hq.
  - rewrite drainCallback_empty by exact Hq; discriminate.
  - rewrite (drainCallback_step k fd s m q Hq); apply IH.
Qed.

Lemma drainCallback_log (fuel : nat) (fd : Z) :
  forall s : IMQ,
  exists ext, log (state_of (drainCallback messageCallback fuel fd s))
              = log s ++ ext.
Proof.
  induction fuel as [|k IH]; intros s.
  - exists []; cbn; now rewrite app_nil_r.
  - destruct (queue s) as [|m q] eqn:Hq.
    + rewrite drainCallback_empty by exact Hq; cbn [state_of].
      rewrite log_popNextMessage; eexists; reflexivity.
    + rewrite (drainCallback_step k fd s m q Hq).
      destruct (IH (snd (body m (snd (popNextMessage fd s))))) as [ext He].
      rewrite He.
      destruct (log_body m (snd (popNextMessage fd s))) as [w [Hw _]].
      rewrite Hw, log_popNextMessage, <- !app_assoc.
      eexists; reflexivity.
Qed.

Lemma drainCallback_invocations (fuel : nat) (fd : Z) :
  forall s : IMQ,
  exists rest,
    invocations (log (state_of (drainCallback messageCallback fuel fd s)))
    = invocations (log s) ++ firstn fuel (queue s) ++ rest.
Proof.
  induction fuel as [|k IH]; intros s.
  - exists []; cbn; now rewrite app_nil_r.
  - destruct (queue s) as [|m q] eqn:Hq.
    + rewrite drainCallback_empty by exact Hq; cbn [state_of].
      rewrite invocations_popNextMessage. exists []; cbn.
      now rewrite app_nil_r.
    + rewrite (drainCallback_step k fd s m q Hq).
      destruct (IH (snd (body m (snd (popNextMessage fd s))))) as [rest He].
      rewrite He, invocations_body, invocations_popNextMessage, queue_body.
      destruct (popNextMessage_cons fd s m q Hq) as [_ H2]. rewrite H2.
      rewrite firstn_app, <- !app_assoc. cbn.
      eexists; reflexivity.
Qed.

Lemma postAll_budget (msgs : list Msg) :
  forall s : IMQ, bytes_ok s ->
  bytesInSocket (postAll msgs s)
  = Z.min 128 (bytesInSocket s + Z.of_nat (length msgs)) /\
  Z.of_nat (length (writes (log (postAll msgs s))))
  = Z.of_nat (length (writes (log s)))
    + (Z.min 128 (bytesInSocket s + Z.of_nat (length msgs)) - bytesInSocket s).
Proof.
  induction msgs as [|m msgs IH]; intros s H.
  - cbn [postAll fold_left length]. unfold bytes_ok, maxBytesInSocketQueue in H.
    split; lia.
  - change (postAll (m :: msgs) s) with (postAll msgs (postMessage m s)).
    destruct (IH (postMessage m s) (bytes_ok_postMessage m s H)) as [Hb Hw].
    rewrite Hb, Hw, log_postMessage, writes_app, length_app.
    rewrite bytesInSocket_postMessage by (apply bytes_ok_is_int; exact H).
    unfold bytes_ok, maxBytesInSocketQueue in *.
    destruct (bytesInSocket s <? 128) eqn:E;
      [apply Z.ltb_lt in E | apply Z.ltb_ge in E];
      cbn [writes filter length]; split; lia.
Qed.

Lemma bytesInSocket_body_quiet (m : Msg) (s : IMQ) :
  fst (messageCallback m) = [] ->
  bytesInSocket (snd (body m s)) = bytesInSocket s.
Proof.
  unfold tryInvoke, runMessage. destruct (messageCallback m) as [posts c].
  cbn [fst]; intros ->. destruct c; reflexivity.
Qed.

Lemma drainCallback_quiet (fd : Z) (q : list Msg) :
  forall s : IMQ,
  queue s = q ->
  (forall m, In m q -> fst (messageCallback m) = []) ->
  bytes_ok s ->
  exists s2,
    drainCallback messageCallback (S (length q)) fd s = Drained s2 /\
    queue s2 = [] /\
    invocations (log s2) = invocations (log s) ++ q /\
    bytesInSocket s2 = Z.max 0 (bytesInSocket s - Z.of_nat (S (length q))).
Proof.
  induction q as [|m q IH]; intros s Hq Hquiet Hb.
  - rewrite drainCallback_empty by exact Hq.
    exists (snd (popNextMessage fd s)).
    split; [reflexivity|].
    split; [apply popNextMessage_nil; exact Hq|].
    split; [rewrite invocations_popNextMessage; now rewrite app_nil_r|].
    rewrite bytesInSocket_popNextMessage by (apply bytes_ok_is_int; exact Hb).
    unfold bytes_ok in Hb.
    destruct (0 <? bytesInSocket s) eqn:E;
      [apply Z.ltb_lt in E | apply Z.ltb_ge in E]; cbn [length]; lia.
  - cbn [length]. rewrite (drainCallback_step _ fd s m q Hq).
    set (s1 := snd (popNextMessage fd s)).
    set (s2 := snd (body m s1)).
    assert (Hm : fst (messageCallback m) = []) by (apply Hquiet; now left).
    assert (Hq2 : queue s2 = q).
    { unfold s2. rewrite queue_body, Hm, app_nil_r.
      apply (popNextMessage_cons fd s m q Hq). }
    assert (Hb1 : bytes_ok s1) by (apply bytes_ok_popNextMessage; exact Hb).
    assert (Hb2 : bytes_ok s2) by (apply bytes_ok_runMessage; exact Hb1).
    destruct (IH s2 Hq2 (fun x Hx => Hquiet x (or_intror Hx)) Hb2)
      as [s3 [Hd [Hq3 [Hi Hbytes]]]].
    exists s3. split; [exact Hd|]. split; [exact Hq3|].
    split.
    + rewrite Hi. unfold s2. rewrite invocations_body. unfold s1.
      rewrite invocations_popNextMessage, <- app_assoc. reflexivity.
    + rewrite Hbytes. unfold s2.
      rewrite (bytesInSocket_body_quiet m s1 Hm). unfold s1.
      rewrite bytesInSocket_popNextMessage
        by (apply bytes_ok_is_int; exact Hb).
      unfold bytes_ok in Hb.
      destruct (0 <? bytesInSocket s) eqn:E;
        [apply Z.ltb_lt in E | apply Z.ltb_ge in E]; lia.
Qed.

(** C2.  Posting more than 128 messages in a row writes a wakeup byte only
    while the counter is below 128, so at most 128 bytes (exactly 128 on a
    fresh queue), and leaves the counter at 128; yet every message is
    queued.  A run of the drain callback that is given at least as many loop
    turns as messages are queued invokes all of them, in order, before
    anything else; and when none of them posts in turn, the run ends with
    the queue empty, exactly these messages invoked, and the counter at 0. *)
Theorem no_item_lost_beyond_budget (s : IMQ) (msgs : list Msg) (fd : Z) :
  bytes_ok s ->
  128 < Z.of_nat (length msgs) ->
  let s1 := postAll msgs s in
  queue s1 = queue s ++ msgs /\
  bytesInSocket s1 = 128 /\
  Z.of_nat (length (writes (log s1)))
  = Z.of_nat (length (writes (log s))) + (128 - bytesInSocket s) /\
  (forall fuel : nat, (length (queue s ++ msgs) <= fuel)%nat ->
     exists rest,
       invocations (log (state_of (drainCallback messageCallback fuel fd s1)))
       = invocations (log s) ++ (queue s ++ msgs) ++ rest) /\
  ((forall m, In m (queue s ++ msgs) -> fst (messageCallback m) = []) ->
   exists s2,
     drainCallback messageCallback (S (length (queue s ++ msgs))) fd s1
     = Drained s2 /\
     queue s2 = [] /\
     invocations (log s2) = invocations (log s) ++ queue s ++ msgs /\
     bytesInSocket s2 = 0).
Proof.
  intros H0 Hn s1.
  assert (Hq : queue s1 = queue s ++ msgs) by apply queue_postAll.
  destruct (postAll_budget msgs s H0) as [Hb Hw]. fold s1 in Hb, Hw.
  assert (Hi : invocations (log s1) = invocations (log s)).
  { destruct (log_postAll msgs s) as [w [Hl Hx]].
    fold s1 in Hl. rewrite Hl, invocations_app, Hx. apply app_nil_r. }
  unfold bytes_ok, maxBytesInSocketQueue in H0.
  split; [exact Hq|]. split; [lia|]. split; [lia|]. split.
  - intros fuel Hf.
    destruct (drainCallback_invocations fuel fd s1) as [rest Hr].
    exists rest. rewrite Hr, Hi, Hq, firstn_all2 by exact Hf. reflexivity.
  - intros Hquiet.
    destruct (drainCallback_quiet fd (queue s ++ msgs) s1 Hq Hquiet
                (bytes_ok_postAll msgs s H0)) as [s2 [Hd [Hq2 [Hi2 Hb2]]]].
    exists s2. split; [exact Hd|]. split; [exact Hq2|].
    split; [now rewrite Hi2, Hi|]. rewrite Hb2, Hb, length_app. lia.
Qed.

(** C6.  With [A] at the head of the queue and [B] next, and [A] raising
    inside its invocation, a run of the drain callback that is given at
    least two loop turns is never left by an exception, and its log shows
    [A] invoked first, the failure of [A] reported, and [B] invoked next. *)
Theorem failing_item_does_not_stop_drain
  (s : IMQ) (A B : Msg) (rest : list Msg) (fd : Z) (fuel : nat) :
  queue s = A :: B :: rest ->
  snd (messageCallback A) = Throws ->
  (2 <= fuel)%nat ->
  let r := drainCallback messageCallback fuel fd s in
  (forall s', r <> Unwound s') /\
  exists pre mid post,
    log (state_of r) = log s ++ pre ++ Invoked A :: mid ++ Invoked B :: post /\
    invocations pre = [] /\ invocations mid = [] /\ In (Reported A) mid.
Proof.
  intros Hq HA Hf r. split.
  - intros s'; apply drainCallback_never_unwinds.
  - destruct fuel as [|[|k]]; try lia.
    unfold r. rewrite (drainCallback_step _ fd s A (B :: rest) Hq).
    set (s1 := snd (popNextMessage fd s)).
    set (s2 := snd (body A s1)).
    assert (Hq2 : queue s2 = B :: (rest ++ fst (messageCallback A))).
    { unfold s2. rewrite queue_body. unfold s1.
      destruct (popNextMessage_cons fd s A (B :: rest) Hq) as [_ ->].
      reflexivity. }
    rewrite (drainCallback_step _ fd s2 B _ Hq2).
    set (s3 := snd (popNextMessage fd s2)).
    set (s4 := snd (body B s3)).
    destruct (drainCallback_log k fd s4) as [ext He]. rewrite He.
    destruct (log_body B s3) as [wB [HwB _]]. fold s4 in HwB.
    destruct (log_body A s1) as [wA [HwA HqA]]. fold s2 in HwA.
    rewrite HA in HwA.
    exists (if 0 <? bytesInSocket s then [SysRead fd] else []).
    exists (wA ++ [Reported A]
               ++ (if 0 <? bytesInSocket s2 then [SysRead fd] else [])).
    eexists. split; [|split; [|split]].
    + rewrite HwB. unfold s3. rewrite log_popNextMessage, HwA. unfold s1.
      rewrite log_popNextMessage, <- !app_assoc. cbn.
      rewrite <- !app_assoc. cbn. reflexivity.
    + destruct (0 <? bytesInSocket s); reflexivity.
    + rewrite invocations_app, HqA.
      destruct (0 <? bytesInSocket s2); reflexivity.
    + apply in_or_app; right; now left.
Qed.

End Queue.

Lemma two_posts_pop_in_order :
  fst (popMany 2 4 Sample.twoQueued) = [Some 0%nat; Some 1%nat].
Proof. reflexivity. Qed.

Lemma bytesInSocket_within_budget_witness :
  bytes_ok Sample.twoQueued /\
  bytes_ok (step Sample.twoQueued (PopCount 4)).
Proof.
  assert (H : bytes_ok Sample.twoQueued)
    by (unfold bytes_ok, maxBytesInSocketQueue; cbn; lia).
  split; [exact H|].
  exact (proj1 (proj2 (bytesInSocket_within_budget
                         nat Sample.messageCallback (3, 4) []))
               Sample.twoQueued (PopCount 4) H).
Defined.

Lemma no_item_lost_beyond_budget_witness :
  (bytes_ok (construct (Msg := nat) (3, 4)) /\
   128 < Z.of_nat (length (repeat 1%nat 129)) /\
   forall m, In m (queue (construct (3, 4)) ++ repeat 1%nat 129) ->
             fst (Sample.messageCallback m) = []) /\
  bytesInSocket (postAll (repeat 1%nat 129) (construct (3, 4))) = 128 /\
  Z.of_nat (length (writes (log (postAll (repeat 1%nat 129)
                                         (construct (3, 4))))))
  = 128 /\
  exists s2,
    drainCallback Sample.messageCallback 130 4
                  (postAll (repeat 1%nat 129) (construct (3, 4)))
    = Drained s2 /\
    queue s2 = [] /\
    invocations (log s2) = repeat 1%nat 129.
Proof.
  assert (H0 : bytes_ok (construct (Msg := nat) (3, 4)))
    by (unfold bytes_ok, maxBytesInSocketQueue; cbn; lia).
  assert (H : 128 < Z.of_nat (length (repeat 1%nat 129)))
    by (vm_compute; reflexivity).
  assert (Hquiet : forall m,
             In m (queue (construct (3, 4)) ++ repeat 1%nat 129) ->
             fst (Sample.messageCallback m) = [])
    by (intros m _; reflexivity).
  split; [split; [exact H0 | split; [exact H | exact Hquiet]]|].
  destruct (no_item_lost_beyond_budget
              nat Sample.messageCallback (construct (3, 4))
              (repeat 1%nat 129) 4 H0 H) as [_ [Hb [Hw [_ Hd]]]].
  split; [exact Hb|]. split; [exact Hw|].
  destruct (Hd Hquiet) as [s2 [E [Hq [Hi _]]]].
  exists s2. split; [exact E | split; [exact Hq | exact Hi]].
Defined.

Lemma failing_item_does_not_stop_drain_witness :
  (queue Sample.twoQueued = [0%nat; 1%nat] /\
   snd (Sample.messageCallback 0%nat) = Throws /\
   (2 <= 2)%nat) /\
  forall s',
    drainCallback Sample.messageCallback 2 4 Sample.twoQueued <> Unwound s'.
Proof.
  split; [repeat split; constructor|].
  exact (proj1 (failing_item_does_not_stop_drain
                  nat Sample.messageCallback Sample.twoQueued
                  0%nat 1%nat [] 4 2%nat eq_refl eq_refl (le_n 2))).
Defined.

End QueueProperties.

(** ** The run loop *)

Module RunLoopProperties.

Import RunLoop.

Section Loop.

Variable Cb : Type.
Variable User : Type.
Variable invoke : Cb -> Z -> User -> User * list (ApiCall Cb).

Abbreviation IRL := (InternalRunLoop Cb).
Abbreviation W := (World Cb User).

(** *** Closed forms of the staging calls and of the merge *)

Lemma fold_applyCall (api : list (ApiCall Cb)) :
  forall s : IRL,
  fold_left applyCall api s =
  mkLoop (fdReadCallbacks s) (pfds s)
         (pendingAdditions s ++ additions_of api)
         (pendingRemovals s ++ removals_of api).
Proof.
  induction api as [|c api IH]; intros s.
  - cbn. rewrite !app_nil_r. destruct s; reflexivity.
  - cbn [fold_left]. rewrite IH. destruct c; cbn; rewrite <- !app_assoc;
      reflexivity.
Qed.

Lemma fold_mergeAddition (adds : list (Z * Cb * pollfd)) :
  forall s : IRL,
  fold_left mergeAddition adds s =
  mkLoop (fdReadCallbacks s ++ map fst adds) (pfds s ++ map snd adds)
         (pendingAdditions s) (pendingRemovals s).
Proof.
  induction adds as [|[[d cb] pfd] adds IH]; intros s.
  - cbn. rewrite !app_nil_r. destruct s; reflexivity.
  - cbn [fold_left]. rewrite IH. cbn. rewrite <- !app_assoc. reflexivity.
Qed.

Lemma purge_nil {A : Type} (key : A -> Z) (v : list A) : purge key [] v = v.
Proof.
  unfold purge. induction v as [|x v IH]; cbn in *; [reflexivity|].
  now rewrite IH.
Qed.

Lemma purge_cons {A : Type} (key : A -> Z) (d : Z) (rems : list Z)
  (v : list A) :
  purge key (d :: rems) v
  = purge key rems (erase_remove_if (fun x => key x =? d) v).
Proof.
  unfold purge, erase_remove_if. induction v as [|x v IH]; cbn in *;
    [reflexivity|].
  destruct (key x =? d); cbn.
  - exact IH.
  - destruct (existsb (Z.eqb (key x)) rems); cbn; [exact IH|].
    now rewrite IH.
Qed.

Lemma fold_removeFdCallback (rems : list Z) :
  forall s : IRL,
  fold_left (fun acc d => removeFdCallback d acc) rems s =
  mkLoop (purge fst rems (fdReadCallbacks s)) (purge fd rems (pfds s))
         (pendingAdditions s) (pendingRemovals s).
Proof.
  induction rems as [|d rems IH]; intros s.
  - cbn. rewrite !purge_nil. destruct s; reflexivity.
  - cbn [fold_left]. rewrite IH. cbn. rewrite !purge_cons. reflexivity.
Qed.

Lemma applyPendingChanges_closed (s : IRL) :
  applyPendingChanges s =
  if empty (pendingAdditions s) && empty (pendingRemovals s) then (false, s)
  else (true,
        mkLoop (purge fst (pendingRemovals s)
                      (fdReadCallbacks s ++ map fst (pendingAdditions s)))
               (purge fd (pendingRemovals s)
                      (pfds s ++ map snd (pendingAdditions s)))
               [] []).
Proof.
  unfold applyPendingChanges.
  destruct (empty (pendingAdditions s) && empty (pendingRemovals s));
    [reflexivity|].
  rewrite fold_removeFdCallback, fold_mergeAddition. reflexivity.
Qed.

Lemma applyPendingChanges_pending (s : IRL) :
  pendingAdditions (snd (applyPendingChanges s)) = [] /\
  pendingRemovals (snd (applyPendingChanges s)) = [].
Proof.
  rewrite applyPendingChanges_closed.
  destruct (pendingAdditions s) eqn:Ea, (pendingRemovals s) eqn:Er; cbn;
    split; solve [reflexivity | assumption].
Qed.

Lemma applyPendingChanges_false (s : IRL) :
  fst (applyPendingChanges s) = false ->
  snd (applyPendingChanges s) = s /\
  pendingAdditions s = [] /\ pendingRemovals s = [].
Proof.
  rewrite applyPendingChanges_closed.
  destruct (pendingAdditions s) eqn:Ea, (pendingRemovals s) eqn:Er; cbn;
    intros H; try discriminate; repeat split; reflexivity.
Qed.

(** A callback that leaves the pending change set empty made no call. *)
Lemma callCallback_no_change (cb : Cb) (d : Z) (w : W) :
  fst (applyPendingChanges (loop (callCallback invoke cb d w))) = false ->
  loop (callCallback invoke cb d w) = loop w.
Proof.
  intros H. apply applyPendingChanges_false in H. destruct H as [_ [Ha Hr]].
  unfold callCallback in *. destruct (invoke cb d (user w)) as [u api].
  cbn [loop] in *. rewrite fold_applyCall in *. cbn in Ha, Hr.
  apply app_eq_nil in Ha, Hr. destruct Ha as [Ha1 Ha2], Hr as [Hr1 Hr2].
  rewrite Ha2, Hr2, !app_nil_r. destruct (loop w); reflexivity.
Qed.

(** *** The two live vectors list the same descriptors *)

Lemma map_purge {A : Type} (key : A -> Z) (rems : list Z) (v : list A) :
  map key (purge key rems v) = purge (fun d => d) rems (map key v).
Proof.
  unfold purge. induction v as [|x v IH]; cbn; [reflexivity|].
  destruct (existsb (Z.eqb (key x)) rems); cbn; now rewrite IH.
Qed.

Lemma strip_write_revents (v : list pollfd) :
  forall rs, map strip (write_revents v rs) = map strip v.
Proof.
  induction v as [|p v IH]; intros [|r rs]; cbn; try reflexivity.
  now rewrite IH.
Qed.

Lemma map_fd_strip (v : list pollfd) : map fd v = map fst (map strip v).
Proof. rewrite map_map. reflexivity. Qed.

Lemma fd_write_revents (v : list pollfd) (rs : list Z) :
  map fd (write_revents v rs) = map fd v.
Proof. now rewrite !map_fd_strip, strip_write_revents. Qed.

Lemma consistent_construct : consistent (construct (Cb := Cb)).
Proof. split; [reflexivity | constructor]. Qed.

Lemma additions_of_ok (api : list (ApiCall Cb)) :
  Forall (fun a : Z * Cb * pollfd => fd (snd a) = fst (fst a))
         (additions_of api).
Proof.
  induction api as [|[d cb m|d] api IH]; cbn; [constructor| |exact IH].
  constructor; [reflexivity | exact IH].
Qed.

Lemma consistent_fold_applyCall (api : list (ApiCall Cb)) (s : IRL) :
  consistent s -> consistent (fold_left applyCall api s).
Proof.
  intros [H1 H2]. rewrite fold_applyCall. split; [exact H1|].
  cbn. apply Forall_app. split; [exact H2 | apply additions_of_ok].
Qed.

Lemma consistent_applyPendingChanges (s : IRL) :
  consistent s -> consistent (snd (applyPendingChanges s)).
Proof.
  intros [H1 H2]. rewrite applyPendingChanges_closed.
  destruct (empty (pendingAdditions s) && empty (pendingRemovals s));
    [split; assumption|].
  split; [|constructor].
  unfold callback_fds, poll_fds in *. cbn.
  rewrite !map_purge, !map_app, H1. f_equal. f_equal.
  rewrite !map_map. apply map_ext_Forall.
  revert H2; apply Forall_impl; intros a Ha; symmetry; exact Ha.
Qed.

Lemma consistent_set_pfds (v : list pollfd) (s : IRL) :
  map fd v = poll_fds s -> consistent s -> consistent (set_pfds v s).
Proof.
  intros Hv [H1 H2]. split; [|exact H2].
  unfold callback_fds, poll_fds in *. cbn. congruence.
Qed.

Lemma consistent_callCallback (cb : Cb) (d : Z) (w : W) :
  consistent (loop w) -> consistent (loop (callCallback invoke cb d w)).
Proof.
  intros H. unfold callCallback. destruct (invoke cb d (user w)) as [u api].
  cbn [loop]. apply consistent_fold_applyCall, H.
Qed.

Lemma forEachCallback_consistent (cbs : list (Z * Cb)) (d : Z) :
  forall (w : W) (sent : bool),
  consistent (loop w) ->
  consistent (loop (snd (forEachCallback invoke cbs d w sent))).
Proof.
  induction cbs as [|c cbs IH]; intros w sent H; cbn [forEachCallback];
    [exact H|].
  destruct (fst c =? d); [|apply IH, H].
  pose proof (consistent_applyPendingChanges _
                (consistent_callCallback (snd c) d w H)) as H1.
  destruct (applyPendingChanges (loop (callCallback invoke (snd c) d w)))
    as [changed s2]. cbn [snd] in H1.
  destruct changed; [exact H1 | apply IH; exact H1].
Qed.

(** When the inner loop runs to its end the run loop is as it was: the
    snapshot of the vectors the two loops iterate over stays accurate. *)
Lemma forEachCallback_GoOn (cbs : list (Z * Cb)) (d : Z) :
  forall (w w2 : W) (sent e : bool),
  forEachCallback invoke cbs d w sent = (GoOn e, w2) -> loop w2 = loop w.
Proof.
  induction cbs as [|c cbs IH]; intros w w2 sent e; cbn [forEachCallback].
  - intros [= _ <-]; reflexivity.
  - destruct (fst c =? d); [|apply IH].
    pose proof (callCallback_no_change (snd c) d w) as Hn.
    pose proof (applyPendingChanges_false
                  (loop (callCallback invoke (snd c) d w))) as Hf.
    destruct (applyPendingChanges (loop (callCallback invoke (snd c) d w)))
      as [changed s2]. cbn [fst snd] in *.
    destruct changed; [discriminate|].
    intros H. apply IH in H. cbn [loop set_loop] in H.
    destruct (Hf eq_refl) as [-> _]. rewrite H. apply Hn; reflexivity.
Qed.

Lemma forEachPfd_consistent (todo : list pollfd) :
  forall (visited : list pollfd) (w : W) (sent : bool),
  map strip (visited ++ todo) = map strip (pfds (loop w)) ->
  consistent (loop w) ->
  consistent (loop (snd (forEachPfd invoke visited todo w sent))).
Proof.
  induction todo as [|pfd rest IH]; intros visited w sent Hz H;
    cbn [forEachPfd]; [exact H|].
  destruct (revents pfd =? 0).
  - apply IH; [rewrite <- app_assoc; exact Hz | exact H].
  - set (pfd0 := mkPollfd (fd pfd) (events pfd) 0).
    set (w1 := set_loop (set_pfds (visited ++ pfd0 :: rest) (loop w)) w).
    assert (Hs : map strip (visited ++ pfd0 :: rest)
                 = map strip (pfds (loop w))).
    { rewrite <- Hz, !map_app. reflexivity. }
    assert (H1 : consistent (loop w1)).
    { apply consistent_set_pfds; [|exact H].
      unfold poll_fds. now rewrite !map_fd_strip, Hs. }
    pose proof (forEachCallback_consistent
                  (fdReadCallbacks (loop w1)) (fd pfd) w1 sent H1) as H2.
    pose proof (fun w2 e => forEachCallback_GoOn
                  (fdReadCallbacks (loop w1)) (fd pfd) w1 w2 sent e) as Hg.
    destruct (forEachCallback invoke (fdReadCallbacks (loop w1)) (fd pfd)
                              w1 sent) as [[result|e] w2];
      cbn [snd] in H2; [exact H2|].
    apply IH; [|exact H2].
    rewrite (Hg w2 e eq_refl), <- app_assoc. reflexivity.
Qed.

Lemma dispatchPendingEvents_consistent (po : PollOutcome) (w : W) :
  consistent (loop w) ->
  consistent (loop (world_of (dispatchPendingEvents invoke po w))).
Proof.
  intros H. unfold dispatchPendingEvents.
  pose proof (consistent_applyPendingChanges _ H) as H1.
  set (w1 := set_loop (snd (applyPendingChanges (loop w))) w) in *.
  change (consistent (loop w1)) in H1.
  destruct (front (pfds (loop w1))); [|exact H1].
  set (w2 := set_loop (set_pfds _ (loop w1)) w1).
  assert (H2 : consistent (loop w2)).
  { apply consistent_set_pfds; [apply fd_write_revents | exact H1]. }
  destruct (poll_ret po =? 0); [exact H2|].
  pose proof (forEachPfd_consistent (pfds (loop w2)) [] w2 false
                eq_refl H2) as H3.
  destruct (forEachPfd invoke [] (pfds (loop w2)) w2 false) as [result w3].
  exact H3.
Qed.

Lemma dispatchRounds_consistent (rs : list (Round Cb)) :
  forall w : W,
  consistent (loop w) ->
  consistent (loop (world_of (dispatchRounds invoke rs w))).
Proof.
  induction rs as [|r rs IH]; intros w H; cbn [dispatchRounds]; [exact H|].
  assert (H1 : consistent (loop (world_of (dispatchRound invoke r w)))).
  { unfold dispatchRound. apply dispatchPendingEvents_consistent.
    cbn [loop set_loop]. apply consistent_fold_applyCall, H. }
  destruct (dispatchRound invoke r w) as [result w1|w1]; cbn [world_of] in H1;
    [apply IH, H1 | exact H1].
Qed.

Lemma purge_self {A : Type} (key : A -> Z) (d : Z) (v : list A) :
  ~ In d (map key (erase_remove_if (fun x => key x =? d) v)).
Proof.
  unfold erase_remove_if. intros H. apply in_map_iff in H.
  destruct H as [x [Hk Hx]]. apply filter_In in Hx. destruct Hx as [_ Hx].
  subst d. rewrite Z.eqb_refl in Hx. discriminate.
Qed.

(** C10.  A fresh run loop has its two live vectors list the same
    descriptors, in the same order, and every call of the registration
    interface, every merge of the pending changes and every dispatch round
    keeps it so.  A merged addition appends one entry to each vector, a
    merged removal leaves no entry of its descriptor in either, and in a
    consistent run loop a descriptor is polled exactly when some callback is
    registered for it. *)
Theorem live_vectors_agree :
  consistent (construct (Cb := Cb)) /\
  (forall (s : IRL) (api : list (ApiCall Cb)),
     consistent s -> consistent (fold_left applyCall api s)) /\
  (forall s : IRL, consistent s -> consistent (snd (applyPendingChanges s))) /\
  (forall (rs : list (Round Cb)) (w : W),
     consistent (loop w) ->
     consistent (loop (world_of (dispatchRounds invoke rs w)))) /\
  (forall (s : IRL) (a : Z * Cb * pollfd),
     fdReadCallbacks (mergeAddition s a)
     = fdReadCallbacks s ++ [(fst (fst a), snd (fst a))] /\
     pfds (mergeAddition s a) = pfds s ++ [snd a]) /\
  (forall (s : IRL) (d : Z),
     ~ In d (callback_fds (removeFdCallback d s)) /\
     ~ In d (poll_fds (removeFdCallback d s))) /\
  (forall (s : IRL) (d : Z),
     consistent s ->
     (In d (poll_fds s) <-> exists cb, In (d, cb) (fdReadCallbacks s))).
Proof.
  split; [apply consistent_construct|].
  split; [intros s api; apply consistent_fold_applyCall|].
  split; [apply consistent_applyPendingChanges|].
  split; [apply dispatchRounds_consistent|].
  split; [intros s [[d cb] pfd]; split; reflexivity|].
  split; [intros s d; split; apply purge_self|].
  intros s d [H _]. rewrite <- H. unfold callback_fds. rewrite in_map_iff.
  split.
  - intros [[d' cb] [Hd Hin]]. cbn in Hd; subst d'. exists cb; exact Hin.
  - intros [cb Hin]. exists (d, cb). split; [reflexivity | exact Hin].
Qed.

(** *** The pass against its wording in the design document *)

Lemma same_but_revents_refl (w : W) : same_but_revents w w.
Proof. repeat split. Qed.

Lemma same_but_revents_sym (w w' : W) :
  same_but_revents w w' -> same_but_revents w' w.
Proof. unfold same_but_revents; intuition congruence. Qed.

Lemma same_but_revents_trans (w w' w'' : W) :
  same_but_revents w w' -> same_but_revents w' w'' -> same_but_revents w w''.
Proof. unfold same_but_revents; intuition congruence. Qed.

Lemma strip_purge (rems : list Z) (v : list pollfd) :
  map strip (purge fd rems v) = purge fst rems (map strip v).
Proof.
  unfold purge. induction v as [|x v IH]; cbn; [reflexivity|].
  destruct (existsb (Z.eqb (fd x)) rems); cbn; now rewrite IH.
Qed.

Lemma same_applyPendingChanges (w w' : W) :
  same_but_revents w w' ->
  fst (applyPendingChanges (loop w)) = fst (applyPendingChanges (loop w')) /\
  same_but_revents (set_loop (snd (applyPendingChanges (loop w))) w)
                   (set_loop (snd (applyPendingChanges (loop w'))) w').
Proof.
  intros (Hu & Hc & Hf & Hp & Ha & Hr).
  rewrite !applyPendingChanges_closed, <- Ha, <- Hr.
  destruct (empty (pendingAdditions (loop w))
            && empty (pendingRemovals (loop w))); cbn [fst snd].
  - split; [reflexivity|]. repeat split; assumption.
  - split; [reflexivity|].
    repeat split; cbn; try assumption.
    + now rewrite Hf.
    + now rewrite !strip_purge, !map_app, Hp.
Qed.

Lemma same_callCallback (cb : Cb) (d : Z) (w w' : W) :
  same_but_revents w w' ->
  same_but_revents (callCallback invoke cb d w) (callCallback invoke cb d w').
Proof.
  intros (Hu & Hc & Hf & Hp & Ha & Hr). unfold callCallback.
  rewrite <- Hu. destruct (invoke cb d (user w)) as [u api].
  rewrite !fold_applyCall. repeat split; cbn; congruence.
Qed.

Lemma same_invokeUntilChange (cands : list (Z * Cb)) :
  forall (w w' : W) (sent : bool),
  same_but_revents w w' ->
  fst (invokeUntilChange invoke cands w sent)
  = fst (invokeUntilChange invoke cands w' sent) /\
  same_but_revents (snd (invokeUntilChange invoke cands w sent))
                   (snd (invokeUntilChange invoke cands w' sent)).
Proof.
  induction cands as [|c cands IH]; intros w w' sent H;
    cbn [invokeUntilChange]; [split; [reflexivity | exact H]|].
  destruct (same_applyPendingChanges _ _
              (same_callCallback (snd c) (fst c) w w' H)) as [Hb Hs].
  destruct (applyPendingChanges
              (loop (callCallback invoke (snd c) (fst c) w)))
    as [changed s2].
  destruct (applyPendingChanges
              (loop (callCallback invoke (snd c) (fst c) w')))
    as [changed' s2'].
  cbn [fst snd] in Hb, Hs. subst changed'.
  destruct changed; [split; [reflexivity | exact Hs]|].
  apply IH, Hs.
Qed.

Lemma forEachCallback_invokeUntilChange (cbs : list (Z * Cb)) (d : Z) :
  forall (w : W) (sent : bool),
  forEachCallback invoke cbs d w sent
  = invokeUntilChange invoke (filter (fun c => fst c =? d) cbs) w sent.
Proof.
  induction cbs as [|c cbs IH]; intros w sent;
    cbn [forEachCallback filter]; [reflexivity|].
  destruct (fst c =? d) eqn:E; [|apply IH].
  apply Z.eqb_eq in E. cbn [invokeUntilChange]. rewrite E.
  destruct (applyPendingChanges (loop (callCallback invoke (snd c) d w)))
    as [[|] s2]; [reflexivity | apply IH].
Qed.

Lemma invokeUntilChange_app (l1 l2 : list (Z * Cb)) :
  forall (w : W) (sent : bool),
  invokeUntilChange invoke (l1 ++ l2) w sent =
  match invokeUntilChange invoke l1 w sent with
  | (ReturnNow result, w') => (ReturnNow result, w')
  | (GoOn e, w') => invokeUntilChange invoke l2 w' e
  end.
Proof.
  induction l1 as [|c l1 IH]; intros w sent; cbn [app invokeUntilChange];
    [reflexivity|].
  destruct (applyPendingChanges
              (loop (callCallback invoke (snd c) (fst c) w)))
    as [[|] s2]; [reflexivity | apply IH].
Qed.

Lemma forEachPfd_refines (todo : list pollfd) :
  forall (visited : list pollfd) (w : W) (sent : bool),
  map strip (visited ++ todo) = map strip (pfds (loop w)) ->
  fst (forEachPfd invoke visited todo w sent)
  = result_of (fst (invokeUntilChange invoke
                      (flat_map (readyCallbacks (fdReadCallbacks (loop w)))
                                todo) w sent)) /\
  same_but_revents
    (snd (forEachPfd invoke visited todo w sent))
    (snd (invokeUntilChange invoke
            (flat_map (readyCallbacks (fdReadCallbacks (loop w))) todo)
            w sent)).
Proof.
  induction todo as [|pfd rest IH]; intros visited w sent Hz;
    cbn [forEachPfd flat_map].
  - split; [reflexivity | apply same_but_revents_refl].
  - unfold readyCallbacks at 1 3. destruct (revents pfd =? 0).
    + cbn [app]. apply IH. rewrite <- app_assoc. exact Hz.
    + set (pfd0 := mkPollfd (fd pfd) (events pfd) 0).
      set (w1 := set_loop (set_pfds (visited ++ pfd0 :: rest) (loop w)) w).
      set (chunk := filter (fun c => fst c =? fd pfd)
                           (fdReadCallbacks (loop w))).
      assert (Hs1 : same_but_revents w1 w).
      { repeat split. cbn. rewrite <- Hz, !map_app. reflexivity. }
      rewrite invokeUntilChange_app.
      rewrite forEachCallback_invokeUntilChange.
      change (fdReadCallbacks (loop w1)) with (fdReadCallbacks (loop w)).
      fold chunk.
      pose proof (fun w2 e => forEachCallback_GoOn
                    (fdReadCallbacks (loop w1)) (fd pfd) w1 w2 sent e) as Hg.
      rewrite forEachCallback_invokeUntilChange in Hg.
      change (fdReadCallbacks (loop w1)) with (fdReadCallbacks (loop w)) in Hg.
      fold chunk in Hg.
      destruct (same_invokeUntilChange chunk w1 w sent Hs1) as [Hf Hw].
      destruct (invokeUntilChange invoke chunk w1 sent) as [f1 w2].
      destruct (invokeUntilChange invoke chunk w sent) as [f1' wa].
      cbn [fst snd] in Hf, Hw. subst f1'.
      destruct f1 as [result|e]; [split; [reflexivity | exact Hw]|].
      specialize (Hg w2 e eq_refl).
      assert (Hz2 : map strip ((visited ++ [pfd0]) ++ rest)
                    = map strip (pfds (loop w2))).
      { rewrite Hg, <- app_assoc. reflexivity. }
      destruct (IH (visited ++ [pfd0]) w2 e Hz2) as [Hr Hsim].
      assert (Hfd : fdReadCallbacks (loop w2) = fdReadCallbacks (loop w))
        by (rewrite Hg; reflexivity).
      rewrite Hfd in Hr, Hsim.
      destruct (same_invokeUntilChange
                  (flat_map (readyCallbacks (fdReadCallbacks (loop w))) rest)
                  w2 wa e Hw) as [Hf2 Hw2].
      split.
      * rewrite Hr, Hf2. reflexivity.
      * eapply same_but_revents_trans; [exact Hsim | exact Hw2].
Qed.

Lemma calls_callCallback (c : Z * Cb) (w : W) :
  calls (callCallback invoke (snd c) (fst c) w) = calls w ++ [c].
Proof.
  unfold callCallback. destruct (invoke (snd c) (fst c) (user w)).
  destruct c; reflexivity.
Qed.

Lemma invokeUntilChange_calls (cands : list (Z * Cb)) :
  forall (w : W) (sent : bool),
  exists k,
    calls (snd (invokeUntilChange invoke cands w sent))
    = calls w ++ firstn k cands /\
    result_of (fst (invokeUntilChange invoke cands w sent))
    = sent || negb (empty (firstn k cands)).
Proof.
  induction cands as [|c cands IH]; intros w sent; cbn [invokeUntilChange].
  - exists 0%nat. cbn. rewrite app_nil_r, orb_false_r. split; reflexivity.
  - pose proof (calls_callCallback c w) as Hc.
    destruct (applyPendingChanges
                (loop (callCallback invoke (snd c) (fst c) w)))
      as [[|] s2].
    + exists 1%nat. cbn. rewrite orb_true_r. split; [exact Hc | reflexivity].
    + destruct (IH (set_loop s2 (callCallback invoke (snd c) (fst c) w)) true)
        as [k [Hk Hr]].
      exists (S k). cbn [firstn empty negb]. rewrite orb_true_r.
      split; [|exact Hr].
      rewrite Hk. cbn [calls set_loop]. rewrite Hc, <- app_assoc. reflexivity.
Qed.

Lemma invokeUntilChange_pending (cands : list (Z * Cb)) :
  forall (w : W) (sent : bool),
  pendingAdditions (loop w) = [] -> pendingRemovals (loop w) = [] ->
  pendingAdditions (loop (snd (invokeUntilChange invoke cands w sent))) = [] /\
  pendingRemovals (loop (snd (invokeUntilChange invoke cands w sent))) = [].
Proof.
  induction cands as [|c cands IH]; intros w sent Ha Hr;
    cbn [invokeUntilChange]; [split; assumption|].
  pose proof (applyPendingChanges_pending
                (loop (callCallback invoke (snd c) (fst c) w))) as [Ha1 Hr1].
  destruct (applyPendingChanges
              (loop (callCallback invoke (snd c) (fst c) w)))
    as [[|] s2]; cbn [snd] in Ha1, Hr1.
  - split; assumption.
  - apply IH; assumption.
Qed.

Lemma front_nonempty {A : Type} (v : list A) : v <> [] -> front v <> None.
Proof. destruct v; [congruence | discriminate]. Qed.

(** C3.  On a live set that is not empty after the first merge, a pass is
    the pass of the design document: it returns what
    [spec_dispatchPending] returns and ends in the same world up to the
    [revents] left in the poll set.  So the callbacks it invokes are the
    candidates of the ready descriptors, in order, up to and including the
    first whose invocation is followed by a merge that applied a change; it
    returns [true] exactly when some callback ran, [false] with no callback
    run when the wait returned 0; and the pending change set is empty when
    it returns. *)
Theorem dispatch_pass_outcome (po : PollOutcome) (w : W) :
  let w1 := set_loop (snd (applyPendingChanges (loop w))) w in
  let w2 := set_loop (set_pfds (write_revents (pfds (loop w1))
                                              (poll_revents po))
                               (loop w1)) w1 in
  pfds (loop w1) <> [] ->
  exists w',
    dispatchPendingEvents invoke po w
    = Done (fst (spec_dispatchPending invoke po w)) w' /\
    same_but_revents w' (snd (spec_dispatchPending invoke po w)) /\
    pendingAdditions (loop w') = [] /\
    pendingRemovals (loop w') = [] /\
    (poll_ret po = 0 ->
     fst (spec_dispatchPending invoke po w) = false /\ w' = w2) /\
    exists new k,
      calls w' = calls w ++ new /\
      new = firstn k (candidates (loop w2)) /\
      fst (spec_dispatchPending invoke po w) = negb (empty new).
Proof.
  intros w1 w2 Hne.
  unfold dispatchPendingEvents, spec_dispatchPending. fold w1. fold w2.
  destruct (front (pfds (loop w1))) eqn:Ef;
    [|exfalso; revert Ef; apply front_nonempty, Hne].
  destruct (applyPendingChanges_pending (loop w)) as [Ha1 Hr1].
  assert (Ha2 : pendingAdditions (loop w2) = []) by exact Ha1.
  assert (Hr2 : pendingRemovals (loop w2) = []) by exact Hr1.
  destruct (poll_ret po =? 0) eqn:E.
  - exists w2. cbn [fst snd].
    split; [reflexivity|]. split; [apply same_but_revents_refl|].
    split; [exact Ha2|]. split; [exact Hr2|].
    split; [intros _; split; reflexivity|].
    exists [], 0%nat. cbn. rewrite app_nil_r. repeat split; reflexivity.
  - destruct (forEachPfd_refines (pfds (loop w2)) [] w2 false eq_refl)
      as [Hres Hsim].
    fold (candidates (loop w2)) in Hres, Hsim.
    destruct (invokeUntilChange_calls (candidates (loop w2)) w2 false)
      as [k [Hk Hb]].
    destruct (invokeUntilChange_pending (candidates (loop w2)) w2 false
                Ha2 Hr2) as [Ha3 Hr3].
    destruct (forEachPfd invoke [] (pfds (loop w2)) w2 false)
      as [result w3].
    destruct (invokeUntilChange invoke (candidates (loop w2)) w2 false)
      as [f w3'].
    cbn [fst snd] in *. subst result.
    exists w3. split; [reflexivity|]. split; [exact Hsim|].
    destruct Hsim as (_ & Hc & _ & _ & Ha & Hr).
    split; [congruence|]. split; [congruence|].
    split; [intros H0; apply Z.eqb_neq in E; contradiction|].
    exists (firstn k (candidates (loop w2))), k.
    split; [rewrite Hc, Hk; reflexivity|]. split; [reflexivity | exact Hb].
Qed.

(** The three ways a pass can go. *)
Lemma dispatchPendingEvents_cases (po : PollOutcome) (w : W) :
  let w1 := set_loop (snd (applyPendingChanges (loop w))) w in
  let w2 := set_loop (set_pfds (write_revents (pfds (loop w1))
                                              (poll_revents po))
                               (loop w1)) w1 in
  (pfds (loop w1) = [] /\ dispatchPendingEvents invoke po w = Undefined w1) \/
  (poll_ret po = 0 /\ dispatchPendingEvents invoke po w = Done false w2) \/
  (pfds (loop w1) <> [] /\ poll_ret po <> 0 /\
   exists w',
     dispatchPendingEvents invoke po w
     = Done (result_of (fst (invokeUntilChange invoke (candidates (loop w2))
                                               w2 false))) w' /\
     same_but_revents
       w' (snd (invokeUntilChange invoke (candidates (loop w2)) w2 false))).
Proof.
  intros w1 w2. unfold dispatchPendingEvents. fold w1. fold w2.
  destruct (pfds (loop w1)) as [|p ps] eqn:Ep.
  - left. split; reflexivity.
  - right. cbn [front]. destruct (poll_ret po =? 0) eqn:E.
    + left. apply Z.eqb_eq in E. split; [exact E | reflexivity].
    + right. apply Z.eqb_neq in E.
      split; [discriminate|]. split; [exact E|].
      destruct (forEachPfd_refines (pfds (loop w2)) [] w2 false eq_refl)
        as [Hres Hsim].
      fold (candidates (loop w2)) in Hres, Hsim.
      destruct (forEachPfd invoke [] (pfds (loop w2)) w2 false)
        as [result w3]. cbn [fst snd] in *.
      exists w3. rewrite Hres. split; [reflexivity | exact Hsim].
Qed.

(** *** A callback that unregisters its own descriptor *)

Lemma purge_absent {A : Type} (key : A -> Z) (d : Z) (rems : list Z)
  (v : list A) :
  In d rems -> ~ In d (map key (purge key rems v)).
Proof.
  intros Hd H. apply in_map_iff in H. destruct H as [x [Hk Hx]].
  unfold purge in Hx. apply filter_In in Hx. destruct Hx as [_ Hx].
  apply negb_true_iff in Hx.
  assert (Ht : existsb (Z.eqb (key x)) rems = true).
  { apply existsb_exists. exists d. split; [exact Hd|].
    subst d. apply Z.eqb_refl. }
  congruence.
Qed.

Lemma purge_incl {A : Type} (key : A -> Z) (d : Z) (rems : list Z)
  (v : list A) :
  In d (map key (purge key rems v)) -> In d (map key v).
Proof.
  intros H. apply in_map_iff in H. destruct H as [x [Hk Hx]].
  apply filter_In in Hx. apply in_map_iff. exists x. tauto.
Qed.

Lemma removals_of_In (d : Z) (api : list (ApiCall Cb)) :
  In (Unregister d) api -> In d (removals_of api).
Proof.
  intros H. unfold removals_of. apply in_flat_map.
  exists (Unregister d). split; [exact H | now left].
Qed.

(** Right after a callback that unregistered [d] the merge applies a
    change, and [d] is in neither live vector. *)
Lemma merge_after_unregister (d : Z) (cb : Cb) (d0 : Z) (w : W) :
  In (Unregister d) (snd (invoke cb d0 (user w))) ->
  let r := applyPendingChanges (loop (callCallback invoke cb d0 w)) in
  fst r = true /\
  ~ In d (callback_fds (snd r)) /\ ~ In d (poll_fds (snd r)) /\
  pendingAdditions (snd r) = [] /\ pendingRemovals (snd r) = [].
Proof.
  intros Hin r. unfold r, callCallback.
  destruct (invoke cb d0 (user w)) as [u api]. cbn [snd loop] in *.
  apply removals_of_In in Hin.
  rewrite fold_applyCall, applyPendingChanges_closed.
  cbn [pendingAdditions pendingRemovals fdReadCallbacks pfds].
  assert (Hr : In d (pendingRemovals (loop w) ++ removals_of api))
    by (apply in_or_app; right; exact Hin).
  destruct (pendingRemovals (loop w) ++ removals_of api) as [|x rems] eqn:E;
    [contradiction|].
  rewrite andb_false_r. cbn [fst snd].
  split; [reflexivity|].
  split; [apply purge_absent; exact Hr|].
  split; [apply purge_absent; exact Hr|].
  split; reflexivity.
Qed.

Section SelfUnregister.

Variable D : Z.
Variable c : Cb.
Hypothesis c_unregisters_D :
  forall u : User, In (Unregister D) (snd (invoke c D u)).

Lemma invokeUntilChange_self (cands : list (Z * Cb)) :
  forall (w : W) (sent : bool) (l1 l2 : list (Z * Cb)),
  calls (snd (invokeUntilChange invoke cands w sent))
  = calls w ++ l1 ++ (D, c) :: l2 ->
  l2 = [] /\
  fst (invokeUntilChange invoke cands w sent) = ReturnNow true /\
  absent D (loop (snd (invokeUntilChange invoke cands w sent))) /\
  pendingRemovals (loop (snd (invokeUntilChange invoke cands w sent))) = [].
Proof.
  induction cands as [|c0 cands IH]; intros w sent l1 l2;
    cbn [invokeUntilChange].
  - cbn [snd]. intros H. rewrite <- (app_nil_r (calls w)) in H at 1.
    apply app_inv_head in H. destruct l1; discriminate.
  - pose proof (calls_callCallback c0 w) as Hc.
    pose proof (merge_after_unregister D (snd c0) (fst c0) w) as Hm.
    destruct (applyPendingChanges
                (loop (callCallback invoke (snd c0) (fst c0) w)))
      as [changed s2] eqn:Ea.
    cbn [fst snd] in Hm.
    assert (Hhead : c0 = (D, c) ->
                    changed = true /\ absent D s2 /\ pendingRemovals s2 = []).
    { intros ->. cbn [fst snd] in Hm.
      destruct (Hm (c_unregisters_D (user w))) as (H1 & H2 & H3 & H4 & H5).
      split; [exact H1|]. split; [|exact H5].
      unfold absent, addition_fds. rewrite H4. cbn. tauto. }
    destruct changed.
    + cbn [fst snd calls set_loop loop]. rewrite Hc. intros H.
      apply app_inv_head in H.
      destruct l1 as [|x l1]; cbn in H.
      * injection H as H1 H2. split; [now symmetry|].
        split; [reflexivity|]. apply Hhead; exact H1.
      * injection H as _ H. destruct l1; discriminate.
    + intros H.
      destruct l1 as [|x l1].
      * exfalso.
        destruct (invokeUntilChange_calls cands
                    (set_loop s2 (callCallback invoke (snd c0) (fst c0) w))
                    true) as [k [Hk _]].
        rewrite Hk in H. cbn [calls set_loop] in H.
        rewrite Hc, <- app_assoc in H. apply app_inv_head in H.
        cbn in H. injection H as H _.
        destruct (Hhead H) as [Hf _]. discriminate.
      * apply (IH _ true l1 l2). rewrite H. cbn [calls set_loop].
        rewrite Hc, <- app_assoc.
        destruct (invokeUntilChange_calls cands
                    (set_loop s2 (callCallback invoke (snd c0) (fst c0) w))
                    true) as [k [Hk _]].
        rewrite Hk in H. cbn [calls set_loop] in H.
        rewrite Hc, <- app_assoc in H. apply app_inv_head in H.
        cbn in H. injection H as H _. subst x. reflexivity.
Qed.

End SelfUnregister.

Lemma same_absent (d : Z) (w w' : W) :
  same_but_revents w w' -> absent d (loop w') -> absent d (loop w).
Proof.
  intros (_ & _ & Hf & Hp & Ha & _) (H1 & H2 & H3).
  unfold absent, callback_fds, poll_fds, addition_fds in *.
  rewrite Hf, Ha, map_fd_strip, Hp, <- map_fd_strip. tauto.
Qed.

Lemma dispatchPendingEvents_self (D : Z) (c : Cb) :
  (forall u : User, In (Unregister D) (snd (invoke c D u))) ->
  forall (po : PollOutcome) (w : W) (l1 l2 : list (Z * Cb)),
  calls (world_of (dispatchPendingEvents invoke po w))
  = calls w ++ l1 ++ (D, c) :: l2 ->
  l2 = [] /\
  exists w',
    dispatchPendingEvents invoke po w = Done true w' /\
    absent D (loop w') /\
    pendingRemovals (loop w') = [].
Proof.
  intros Hself po w l1 l2 H.
  assert (Hno : calls w <> calls w ++ l1 ++ (D, c) :: l2).
  { intros E. rewrite <- (app_nil_r (calls w)) in E at 1.
    apply app_inv_head in E. destruct l1; discriminate. }
  destruct (dispatchPendingEvents_cases po w)
    as [[_ E] | [[_ E] | (_ & _ & w' & E & Hsim)]];
    rewrite E in H; cbn [world_of] in H; try (exfalso; exact (Hno H)).
  set (w2 := set_loop (set_pfds _ _) _) in *.
  destruct Hsim as (Hu & Hc & Hrest).
  rewrite Hc in H. change (calls w) with (calls w2) in H.
  destruct (invokeUntilChange_self D c Hself _ _ _ _ _ H)
    as (Hl & Hf & Ha & Hr).
  split; [exact Hl|]. exists w'. rewrite E, Hf. cbn [result_of].
  split; [reflexivity|].
  split; [apply (same_absent D w' _ (conj Hu (conj Hc Hrest))), Ha|].
  destruct Hrest as (_ & _ & _ & Hpr). congruence.
Qed.

Section NeverAgain.

Variable D : Z.
Hypothesis nothing_registers_D :
  forall (cb : Cb) (d : Z) (u : User),
    Forall (fun a => ~ registers D a) (snd (invoke cb d u)).

Lemma absent_fold_applyCall (api : list (ApiCall Cb)) (s : IRL) :
  Forall (fun a => ~ registers D a) api ->
  absent D s -> absent D (fold_left applyCall api s).
Proof.
  intros Hapi (H1 & H2 & H3). rewrite fold_applyCall.
  split; [exact H1|]. split; [exact H2|].
  unfold addition_fds in *. cbn. rewrite map_app, in_app_iff.
  intros [H|H]; [exact (H3 H)|].
  apply in_map_iff in H. destruct H as [[[d cb] pfd] [Hd Hin]].
  cbn in Hd. subst d. unfold additions_of in Hin.
  apply in_flat_map in Hin. destruct Hin as [a [Ha Hin]].
  rewrite Forall_forall in Hapi. specialize (Hapi a Ha).
  destruct a as [d cb' m|d]; cbn in Hin; [|contradiction].
  destruct Hin as [Hin|[]]. injection Hin as -> _ _. apply Hapi. reflexivity.
Qed.

Lemma absent_applyPendingChanges (s : IRL) :
  consistent s -> absent D s -> absent D (snd (applyPendingChanges s)).
Proof.
  intros [_ Hok] (H1 & H2 & H3). rewrite applyPendingChanges_closed.
  destruct (empty (pendingAdditions s) && empty (pendingRemovals s));
    [repeat split; assumption|].
  unfold absent, callback_fds, poll_fds, addition_fds in *. cbn.
  split; [|split; [|tauto]]; intros H; apply purge_incl in H;
    rewrite map_app, in_app_iff in H; destruct H as [H|H]; try tauto.
  - apply H3. rewrite map_map in H. exact H.
  - apply H3. rewrite map_map in H.
    rewrite (map_ext_Forall _ (fun a : Z * Cb * pollfd => fst (fst a))) in H;
      [exact H | exact Hok].
Qed.

Lemma absent_callCallback (cb : Cb) (d : Z) (w : W) :
  absent D (loop w) -> absent D (loop (callCallback invoke cb d w)).
Proof.
  intros H. pose proof (nothing_registers_D cb d (user w)) as Hn.
  unfold callCallback. destruct (invoke cb d (user w)) as [u api].
  cbn [loop snd] in *. apply absent_fold_applyCall; assumption.
Qed.

Lemma invokeUntilChange_absent (cands : list (Z * Cb)) :
  forall (w : W) (sent : bool),
  consistent (loop w) -> absent D (loop w) ->
  consistent (loop (snd (invokeUntilChange invoke cands w sent))) /\
  absent D (loop (snd (invokeUntilChange invoke cands w sent))).
Proof.
  induction cands as [|c0 cands IH]; intros w sent Hc Ha;
    cbn [invokeUntilChange]; [split; assumption|].
  pose proof (consistent_callCallback (snd c0) (fst c0) w Hc) as Hc1.
  pose proof (absent_callCallback (snd c0) (fst c0) w Ha) as Ha1.
  pose proof (consistent_applyPendingChanges _ Hc1) as Hc2.
  pose proof (absent_applyPendingChanges _ Hc1 Ha1) as Ha2.
  destruct (applyPendingChanges
              (loop (callCallback invoke (snd c0) (fst c0) w)))
    as [[|] s2]; cbn [snd] in Hc2, Ha2; [split; assumption|].
  apply IH; assumption.
Qed.

Lemma candidates_registered (s : IRL) (e : Z * Cb) :
  In e (candidates s) -> In (fst e) (callback_fds s).
Proof.
  unfold candidates, readyCallbacks. intros H. apply in_flat_map in H.
  destruct H as [pfd [_ H]]. destruct (revents pfd =? 0); [contradiction|].
  apply filter_In in H. apply in_map, H.
Qed.

Lemma firstn_incl {A : Type} (k : nat) (l : list A) (x : A) :
  In x (firstn k l) -> In x l.
Proof.
  intros H. rewrite <- (firstn_skipn k l). apply in_or_app; left; exact H.
Qed.

Lemma dispatchPendingEvents_absent (po : PollOutcome) (w : W) :
  consistent (loop w) -> absent D (loop w) ->
  exists new,
    calls (world_of (dispatchPendingEvents invoke po w)) = calls w ++ new /\
    Forall (fun e : Z * Cb => fst e <> D) new /\
    absent D (loop (world_of (dispatchPendingEvents invoke po w))).
Proof.
  intros Hc Ha.
  pose proof (consistent_applyPendingChanges _ Hc) as Hc1.
  pose proof (absent_applyPendingChanges _ Hc Ha) as Ha1.
  pose proof (dispatchPendingEvents_cases po w) as Hcases.
  set (w1 := set_loop (snd (applyPendingChanges (loop w))) w) in *.
  set (w2 := set_loop (set_pfds (write_revents (pfds (loop w1))
                                               (poll_revents po))
                                (loop w1)) w1) in *.
  assert (Hc2 : consistent (loop w2)).
  { apply consistent_set_pfds; [apply fd_write_revents | exact Hc1]. }
  assert (Ha2 : absent D (loop w2)).
  { destruct Ha1 as (H1 & H2 & H3). repeat split; try assumption.
    unfold poll_fds in *. cbn. rewrite fd_write_revents. exact H2. }
  destruct Hcases as [[_ E] | [[_ E] | (_ & _ & w' & E & Hsim)]];
    rewrite E; cbn [world_of].
  - exists []. rewrite app_nil_r. repeat split; [constructor | apply Ha1..].
  - exists []. rewrite app_nil_r. repeat split; [constructor | apply Ha2..].
  - destruct (invokeUntilChange_calls (candidates (loop w2)) w2 false)
      as [k [Hk _]].
    destruct (invokeUntilChange_absent (candidates (loop w2)) w2 false
                Hc2 Ha2) as [_ Ha3].
    exists (firstn k (candidates (loop w2))).
    split; [destruct Hsim as (_ & -> & _); exact Hk|].
    split; [|apply (same_absent D w' _ Hsim), Ha3].
    apply Forall_forall. intros e He Heq.
    apply firstn_incl, candidates_registered in He.
    destruct Ha2 as [H1 _]. apply H1. rewrite <- Heq. exact He.
Qed.

Lemma dispatchRounds_absent (rs : list (Round Cb)) :
  forall w : W,
  Forall (fun r => Forall (fun a => ~ registers D a) (staged r)) rs ->
  consistent (loop w) -> absent D (loop w) ->
  exists new,
    calls (world_of (dispatchRounds invoke rs w)) = calls w ++ new /\
    Forall (fun e : Z * Cb => fst e <> D) new /\
    absent D (loop (world_of (dispatchRounds invoke rs w))).
Proof.
  induction rs as [|r rs IH]; intros w Hrs Hc Ha; cbn [dispatchRounds].
  - exists []. rewrite app_nil_r. repeat split; [constructor | apply Ha..].
  - inversion Hrs as [|r' rs' Hr Hrs']; subst.
    set (w0 := set_loop (fold_left applyCall (staged r) (loop w)) w).
    assert (Hc0 : consistent (loop w0))
      by (apply consistent_fold_applyCall, Hc).
    assert (Ha0 : absent D (loop w0))
      by (apply absent_fold_applyCall; assumption).
    destruct (dispatchPendingEvents_absent (outcome r) w0 Hc0 Ha0)
      as [new [Hn [Hf Hab]]].
    pose proof (dispatchPendingEvents_consistent (outcome r) w0 Hc0)
      as Hc1.
    unfold dispatchRound. fold w0.
    destruct (dispatchPendingEvents invoke (outcome r) w0)
      as [result w1|w1]; cbn [world_of] in *.
    + destruct (IH w1 Hrs' Hc1 Hab) as [new' [Hn' [Hf' Hab']]].
      exists (new ++ new'). rewrite Hn', Hn, <- app_assoc.
      split; [reflexivity|]. split; [apply Forall_app; split; assumption|].
      exact Hab'.
    + exists new. split; [exact Hn|]. split; assumption.
Qed.

End NeverAgain.

Lemma readyCallbacks_idle (cbs : list (Z * Cb)) (ps : list pollfd) :
  Forall (fun p => revents p = 0) ps ->
  flat_map (readyCallbacks cbs) ps = [].
Proof.
  induction 1 as [|p ps Hp _ IH]; cbn; [reflexivity|].
  unfold readyCallbacks at 1. rewrite Hp. cbn. exact IH.
Qed.

Lemma filter_not_registered (d : Z) (cbs : list (Z * Cb)) :
  ~ In d (map fst cbs) -> filter (fun c => fst c =? d) cbs = [].
Proof.
  induction cbs as [|c cbs IH]; cbn; [reflexivity|]. intros H.
  destruct (fst c =? d) eqn:E.
  - apply Z.eqb_eq in E. tauto.
  - apply IH. tauto.
Qed.

Lemma dispatchPendingEvents_single_readiness (D : Z) (c : Cb) :
  (forall u : User, In (Unregister D) (snd (invoke c D u))) ->
  forall (po : PollOutcome) (w : W) (ps1 ps2 : list pollfd) (pD : pollfd)
         (cbs1 cbs2 : list (Z * Cb)),
  pendingAdditions (loop w) = [] ->
  pendingRemovals (loop w) = [] ->
  write_revents (pfds (loop w)) (poll_revents po) = ps1 ++ pD :: ps2 ->
  Forall (fun p => revents p = 0) ps1 ->
  fd pD = D ->
  revents pD <> 0 ->
  poll_ret po <> 0 ->
  fdReadCallbacks (loop w) = cbs1 ++ (D, c) :: cbs2 ->
  ~ In D (map fst cbs1) ->
  exists w',
    dispatchPendingEvents invoke po w = Done true w' /\
    calls w' = calls w ++ [(D, c)] /\
    absent D (loop w') /\
    pendingRemovals (loop w') = [].
Proof.
  intros Hself po w ps1 ps2 pD cbs1 cbs2 Hpa Hpr Hw Hidle HD Hready Hret
         Hcbs Hfirst.
  assert (Hap : applyPendingChanges (loop w) = (false, loop w)).
  { rewrite applyPendingChanges_closed, Hpa, Hpr. reflexivity. }
  pose proof (dispatchPendingEvents_cases po w) as Hcases.
  cbv zeta in Hcases. rewrite Hap in Hcases.
  cbn [snd loop set_loop] in Hcases. rewrite Hw in Hcases.
  set (w2 := set_loop (set_pfds (ps1 ++ pD :: ps2) (loop w))
                      (set_loop (loop w) w)) in *.
  change (set_pfds (ps1 ++ pD :: ps2) (loop w)) with (loop w2) in Hcases.
  destruct Hcases as [[Hnil _] | [[H0 _] | (_ & _ & w' & E & Hsim)]].
  - rewrite Hnil in Hw. destruct (poll_revents po), ps1; discriminate.
  - contradiction.
  - assert (Hcands : exists tl, candidates (loop w2) = (D, c) :: tl).
    { unfold candidates. cbn [w2 loop set_loop set_pfds fdReadCallbacks pfds].
      rewrite flat_map_app, readyCallbacks_idle by exact Hidle.
      cbn [app flat_map]. unfold readyCallbacks at 1.
      apply Z.eqb_neq in Hready. rewrite Hready, HD, Hcbs, filter_app.
      rewrite filter_not_registered by exact Hfirst.
      cbn [app filter fst]. rewrite Z.eqb_refl. eexists; reflexivity. }
    destruct Hcands as [tl Htl]. rewrite Htl in E, Hsim.
    cbn [invokeUntilChange fst snd] in E, Hsim.
    pose proof (calls_callCallback (D, c) w2) as Hc.
    cbn [fst snd] in Hc.
    destruct (merge_after_unregister D c D w2 (Hself (user w2)))
      as (H1 & H2 & H3 & H4 & H5).
    destruct (applyPendingChanges (loop (callCallback invoke c D w2)))
      as [changed s2]. cbn [fst snd] in H1, H2, H3, H4, H5. subst changed.
    cbn [fst snd result_of] in E, Hsim.
    exists w'. split; [exact E|].
    split; [destruct Hsim as (_ & -> & _); exact Hc|].
    split.
    + apply (same_absent D w' _ Hsim). cbn [loop set_loop].
      unfold absent, addition_fds. rewrite H4. cbn. tauto.
    + destruct Hsim as (_ & _ & _ & _ & _ & ->). exact H5.
Qed.

(** C7.  Let callback [c], whenever it is invoked on descriptor [D], call
    [unregisterFdCallback (D)].  (1) With nothing staged, [c] the first
    callback registered for [D], and [D] the first descriptor the wait
    reports ready, the pass invokes [c] on [D] and nothing else, returns
    [true], and leaves [D] in neither live vector.  (2) In any pass
    whatsoever, an invocation of [c] on [D] is the last invocation of the
    pass, and the pass returns with [D] purged and nothing staged.
    (3) From then on, as long as nobody registers [D] again, no pass of any
    later round invokes a callback on [D], whatever the waits report. *)
Theorem self_unregistering_callback_runs_once (D : Z) (c : Cb) :
  (forall u : User, In (Unregister D) (snd (invoke c D u))) ->
  (forall (po : PollOutcome) (w : W) (ps1 ps2 : list pollfd) (pD : pollfd)
          (cbs1 cbs2 : list (Z * Cb)),
     pendingAdditions (loop w) = [] ->
     pendingRemovals (loop w) = [] ->
     write_revents (pfds (loop w)) (poll_revents po) = ps1 ++ pD :: ps2 ->
     Forall (fun p => revents p = 0) ps1 ->
     fd pD = D ->
     revents pD <> 0 ->
     poll_ret po <> 0 ->
     fdReadCallbacks (loop w) = cbs1 ++ (D, c) :: cbs2 ->
     ~ In D (map fst cbs1) ->
     exists w',
       dispatchPendingEvents invoke po w = Done true w' /\
       calls w' = calls w ++ [(D, c)] /\
       absent D (loop w') /\
       pendingRemovals (loop w') = []) /\
  (forall (po : PollOutcome) (w : W) (l1 l2 : list (Z * Cb)),
     calls (world_of (dispatchPendingEvents invoke po w))
     = calls w ++ l1 ++ (D, c) :: l2 ->
     l2 = [] /\
     exists w',
       dispatchPendingEvents invoke po w = Done true w' /\
       absent D (loop w') /\
       pendingRemovals (loop w') = []) /\
  ((forall (cb : Cb) (d : Z) (u : User),
      Forall (fun a => ~ registers D a) (snd (invoke cb d u))) ->
   forall (rs : list (Round Cb)) (w : W),
     Forall (fun r => Forall (fun a => ~ registers D a) (staged r)) rs ->
     consistent (loop w) ->
     absent D (loop w) ->
     exists new,
       calls (world_of (dispatchRounds invoke rs w)) = calls w ++ new /\
       Forall (fun e : Z * Cb => fst e <> D) new /\
       absent D (loop (world_of (dispatchRounds invoke rs w)))).
Proof.
  intros Hself. split; [|split].
  - apply dispatchPendingEvents_single_readiness, Hself.
  - apply dispatchPendingEvents_self, Hself.
  - intros Hnoreg rs w. apply dispatchRounds_absent, Hnoreg.
Qed.

(** C4.  On a run loop with no live descriptor and no staged addition the
    pass does not reach the wait: after the merge the poll set is still
    empty, and taking [front] of it leaves the behaviour undefined. *)
Theorem dispatch_on_empty_set_undefined
  (po : PollOutcome) (rems : list Z) (u : User) (log : list (Z * Cb)) :
  dispatchPendingEvents invoke po (mkWorld (mkLoop [] [] [] rems) u log)
  = Undefined (mkWorld (mkLoop [] [] [] []) u log).
Proof.
  unfold dispatchPendingEvents. cbn [loop].
  rewrite applyPendingChanges_closed.
  destruct rems as [|d rems]; reflexivity.
Qed.

End Loop.

Lemma live_vectors_agree_witness :
  consistent (registerFdCallback 5 true 1 construct) /\
  consistent (loop Sample.oneLive).
Proof.
  assert (H : consistent (registerFdCallback 5 true 1 construct))
    by (split; [reflexivity | repeat constructor]).
  split; [exact H|].
  exact (proj1 (proj2 (proj2 (live_vectors_agree bool unit Sample.invoke)))
               _ H).
Defined.

Lemma dispatch_pass_outcome_witness :
  pfds (loop (set_loop (snd (applyPendingChanges (loop Sample.oneLive)))
                       Sample.oneLive)) <> [] /\
  exists w',
    dispatchPendingEvents Sample.invoke Sample.ready Sample.oneLive
    = Done true w'.
Proof.
  assert (H : pfds (loop (set_loop
                            (snd (applyPendingChanges (loop Sample.oneLive)))
                            Sample.oneLive)) <> [])
    by (cbn; discriminate).
  split; [exact H|].
  destruct (dispatch_pass_outcome bool unit Sample.invoke Sample.ready
                                  Sample.oneLive H) as [w' [E _]].
  exists w'. exact E.
Defined.

Lemma self_unregistering_callback_runs_once_witness :
  ((forall u : unit, In (Unregister 5) (snd (Sample.invoke true 5 u))) /\
   (forall (cb : bool) (d : Z) (u : unit),
      Forall (fun a => ~ registers 5 a) (snd (Sample.invoke cb d u))) /\
   consistent (construct (Cb := bool)) /\
   absent 5 (construct (Cb := bool))) /\
  (exists w',
     dispatchPendingEvents Sample.invoke Sample.ready Sample.oneLive
     = Done true w' /\
     calls w' = [(5, true)] /\
     absent 5 (loop w')) /\
  (exists new,
     calls (world_of (dispatchRounds Sample.invoke [mkRound [] Sample.ready]
                                     (mkWorld construct tt [])))
     = new /\
     Forall (fun e : Z * bool => fst e <> 5) new).
Proof.
  assert (H : forall u : unit,
             In (Unregister 5) (snd (Sample.invoke true 5 u)))
    by (intros u; left; reflexivity).
  assert (Hn : forall (cb : bool) (d : Z) (u : unit),
             Forall (fun a => ~ registers 5 a) (snd (Sample.invoke cb d u))).
  { intros [|] d u; cbn; repeat constructor. intros F; exact F. }
  assert (Hc : consistent (construct (Cb := bool)))
    by (split; [reflexivity | constructor]).
  assert (Ha : absent 5 (construct (Cb := bool)))
    by (repeat split; intros F; exact F).
  split; [split; [exact H | split; [exact Hn | split; [exact Hc | exact Ha]]]|].
  destruct (self_unregistering_callback_runs_once
              bool unit Sample.invoke 5 true H) as [H1 [_ H3]].
  split.
  - destruct (H1 Sample.ready Sample.oneLive [] [] (mkPollfd 5 1 1) [] []
                 eq_refl eq_refl eq_refl (Forall_nil _) eq_refl
                 ltac:(discriminate) ltac:(discriminate) eq_refl
                 (fun x => x))
      as [w' [E [Hw [Hab _]]]].
    exists w'. split; [exact E | split; [exact Hw | exact Hab]].
  - destruct (H3 Hn [mkRound [] Sample.ready] (mkWorld construct tt [])
                 ltac:(repeat constructor) Hc Ha)
      as [new [E [Hf _]]].
    exists new. split; [exact E | exact Hf].
Defined.

Lemma dispatch_on_fresh_run_loop :
  dispatchPendingEvents Sample.invoke Sample.ready (mkWorld construct tt [])
  = Undefined (mkWorld construct tt []).
Proof. reflexivity. Qed.

End RunLoopProperties.

(** ** The entry points of MessageManager *)

Module ManagerProperties.

Import Manager.

Section Entry.

Variable Msg : Type.
Variable Cb : Type.
Variable User : Type.
Variable invoke : Cb -> Z -> User -> User * list (RunLoop.ApiCall Cb).
Variable App : Type.
Variable quit : App -> App.

Abbreviation Proc := (Process Msg Cb User App).

(** C8.  [postMessageToSystemQueue] returns [false] exactly when the queue
    singleton does not exist, and then changes nothing.  When it exists the
    result is [true] and the message has been enqueued by [postMessage]:
    it is the last element of the queue, behind everything that was queued,
    so that the pops return first what was queued and then the message;
    one wakeup byte [0xff] was written to the write handle and counted
    exactly when the counter was below 128; and nothing else of the process
    has changed. *)
Theorem postMessageToSystemQueue_result (message : Msg) (p : Proc) :
  (fst (postMessageToSystemQueue message p) = false <-> messageQueue p = None)
  /\
  (forall q, messageQueue p = Some q ->
     postMessageToSystemQueue message p
     = (true, set_messageQueue
                (Some (MessageQueue.postMessage message q)) p) /\
     exists q',
       messageQueue (snd (postMessageToSystemQueue message p)) = Some q' /\
       MessageQueue.queue q' = MessageQueue.queue q ++ [message] /\
       (forall fd,
          fst (MessageQueue.popMany (S (length (MessageQueue.queue q))) fd q')
          = map Some (MessageQueue.queue q) ++ [Some message]) /\
       MessageQueue.log q'
       = MessageQueue.log q
         ++ (if MessageQueue.bytesInSocket q <? 128
             then [MessageQueue.SysWrite (fst (MessageQueue.msgpipe q)) 255]
             else []) /\
       (MessageQueue.bytes_ok q ->
        MessageQueue.bytesInSocket q'
        = if MessageQueue.bytesInSocket q <? 128
          then MessageQueue.bytesInSocket q + 1
          else MessageQueue.bytesInSocket q) /\
       MessageQueue.msgpipe q' = MessageQueue.msgpipe q) /\
  (messageQueue p = None -> postMessageToSystemQueue message p = (false, p)) /\
  runLoop (snd (postMessageToSystemQueue message p)) = runLoop p /\
  keyboardBreakOccurred (snd (postMessageToSystemQueue message p))
  = keyboardBreakOccurred p /\
  application (snd (postMessageToSystemQueue message p)) = application p.
Proof.
  unfold postMessageToSystemQueue.
  destruct (messageQueue p) as [q|] eqn:Hq; cbn [fst snd].
  - split; [split; discriminate|].
    split; [|split; [discriminate | repeat split]].
    intros q0 [= <-]. split; [reflexivity|].
    exists (MessageQueue.postMessage message q).
    split; [reflexivity|].
    pose proof (QueueProperties.queue_postMessage Msg message q) as Hqueue.
    split; [exact Hqueue|].
    split.
    { intros fd.
      destruct (QueueProperties.popMany_queue Msg fd
                  (MessageQueue.queue q ++ [message])
                  (MessageQueue.postMessage message q) Hqueue) as [Hpop _].
      rewrite length_app, Nat.add_1_r, map_app in Hpop. exact Hpop. }
    split; [apply QueueProperties.log_postMessage|].
    split.
    { intros Hb.
      apply (QueueProperties.bytesInSocket_postMessage Msg message q),
        QueueProperties.bytes_ok_is_int, Hb. }
    unfold MessageQueue.postMessage. cbn.
    destruct (MessageQueue.bytesInSocket q <? MessageQueue.maxBytesInSocketQueue);
      reflexivity.
  - split; [split; reflexivity|].
    split; [discriminate|]. repeat split.
Qed.

Lemma signals_keep_singletons (sigs : list Z) :
  forall p : Proc,
  let p' := fold_left (fun acc sig => keyboardBreakSignalHandler sig acc)
                      sigs p in
  runLoop p' = runLoop p /\ messageQueue p' = messageQueue p.
Proof.
  induction sigs as [|sig sigs IH]; intros p; cbn [fold_left];
    [split; reflexivity|].
  destruct (IH (keyboardBreakSignalHandler sig p)) as [H1 H2].
  cbv zeta. rewrite H1, H2. unfold keyboardBreakSignalHandler.
  destruct (sig =? SIGINT); split; reflexivity.
Qed.

(** C9.  While the run-loop singleton does not exist,
    [dispatchNextMessageOnSystemQueue] is still inside its loop after any
    number of turns, whatever [returnIfNoPendingMessages] is and whatever
    signals arrive: it returns neither [true] nor [false]. *)
Theorem dispatch_without_run_loop_never_returns
  (returnIfNoPendingMessages : bool) (turns : list Turn) (p : Proc) :
  runLoop p = None ->
  exists p',
    dispatchNextMessageOnSystemQueue invoke quit returnIfNoPendingMessages
                                     turns p = Looping p' /\
    runLoop p' = None /\
    messageQueue p' = messageQueue p.
Proof.
  revert p. induction turns as [|t turns IH]; intros p Hnone;
    cbn [dispatchNextMessageOnSystemQueue].
  - exists p. repeat split; [exact Hnone].
  - destruct (signals_keep_singletons (signals t) p) as [H1 H2].
    cbv zeta in H1, H2.
    set (p0 := fold_left (fun acc sig => keyboardBreakSignalHandler sig acc)
                         (signals t) p) in *.
    set (p1 := if keyboardBreakOccurred p0
               then set_application Msg Cb User App
                      (quit (application p0)) p0
               else p0).
    assert (H3 : runLoop p1 = None /\ messageQueue p1 = messageQueue p).
    { unfold p1. destruct (keyboardBreakOccurred p0); cbn;
        rewrite ?H1, ?H2; split; solve [assumption | reflexivity]. }
    destruct H3 as [H3 H4]. rewrite H3.
    destruct (IH p1 H3) as [p' [E [Hr Hq]]].
    exists p'. split; [exact E|]. split; [exact Hr | congruence].
Qed.

End Entry.

Lemma postMessageToSystemQueue_result_witness :
  (messageQueue Sample.noSingletons = None /\
   messageQueue Sample.queued = Some Sample.twoQueued) /\
  postMessageToSystemQueue 7%nat Sample.noSingletons
  = (false, Sample.noSingletons) /\
  fst (postMessageToSystemQueue 7%nat Sample.queued) = true /\
  exists q',
    messageQueue (snd (postMessageToSystemQueue 7%nat Sample.queued))
    = Some q' /\
    MessageQueue.queue q' = [0%nat; 1%nat; 7%nat] /\
    fst (MessageQueue.popMany 3 4 q') = [Some 0%nat; Some 1%nat; Some 7%nat].
Proof.
  split; [split; reflexivity|].
  split.
  - exact (proj1 (proj2 (proj2 (postMessageToSystemQueue_result
                                  nat bool unit unit 7%nat
                                  Sample.noSingletons)))
                 eq_refl).
  - destruct (proj1 (proj2 (postMessageToSystemQueue_result
                              nat bool unit unit 7%nat Sample.queued))
                    Sample.twoQueued eq_refl)
      as [E [q' [Hm [Hq [Hp _]]]]].
    split; [rewrite E; reflexivity|].
    exists q'. split; [exact Hm|]. split; [exact Hq | exact (Hp 4)].
Defined.

Lemma dispatch_without_run_loop_never_returns_witness :
  runLoop Sample.noSingletons = None /\
  exists p',
    dispatchNextMessageOnSystemQueue
      Sample.invoke Sample.quit true
      [Sample.interrupted; Sample.interrupted] Sample.noSingletons
    = Looping p'.
Proof.
  split; [reflexivity|].
  destruct (dispatch_without_run_loop_never_returns
              nat bool unit Sample.invoke unit Sample.quit true
              [Sample.interrupted; Sample.interrupted]
              Sample.noSingletons eq_refl) as [p' [E _]].
  exists p'. exact E.
Defined.

End ManagerProperties.

(** * Further properties *)

(** ** The message queue, continued *)

Module QueueExtras.

Import MessageQueue.
Import QueueProperties.

Section Queue.

Variable Msg : Type.
Variable messageCallback : Msg -> list Msg * Completion.

Abbreviation IMQ := (InternalMessageQueue Msg).
Abbreviation drain := (drainCallback messageCallback).
Abbreviation posts := (fun m : Msg => fst (messageCallback m)).

(** *** The counter against the log *)

Lemma reads_app (l1 l2 : list (Event Msg)) :
  reads (l1 ++ l2) = reads l1 ++ reads l2.
Proof. unfold reads; apply filter_app. Qed.

Lemma log_count (fd : Z) (s : IMQ) :
  log (popNextMessage_count fd s)
  = log s ++ (if 0 <? bytesInSocket s then [SysRead fd] else []).
Proof.
  unfold popNextMessage_count.
  destruct (0 <? bytesInSocket s); cbn; [reflexivity | now rewrite app_nil_r].
Qed.

Lemma bytesInSocket_count (fd : Z) (s : IMQ) :
  is_int (bytesInSocket s) ->
  bytesInSocket (popNextMessage_count fd s)
  = if 0 <? bytesInSocket s then bytesInSocket s - 1 else bytesInSocket s.
Proof.
  intros Hi. rewrite <- (bytesInSocket_popNextMessage Msg fd s Hi).
  unfold popNextMessage. now rewrite bytesInSocket_remove.
Qed.

Lemma accounted_move (x : Shared Msg) (m : Move Msg) :
  accounted x -> accounted (move x m).
Proof.
  intros [Hb Hl]. unfold accounted, unread, bytes_ok in *.
  pose proof (bytes_ok_is_int Msg (object x) Hb) as Hi.
  destruct m as [msg| |fd| |]; cbn [move].
  - cbn [bytesInSocket set_queue].
    destruct (bytesInSocket (object x) <? maxBytesInSocketQueue) eqn:E;
      cbn [object owedWrites owedReads bytesInSocket log set_queue
           set_bytesInSocket].
    2: { split; [exact Hb | exact Hl]. }
    apply Z.ltb_lt in E. rewrite wrap_int_small
      by (unfold is_int, maxBytesInSocketQueue in *; lia).
    unfold maxBytesInSocketQueue in *. split; lia.
  - destruct (owedWrites x) as [|k] eqn:Ew;
      [split; [exact Hb | rewrite Ew; exact Hl]|].
    cbn [object owedWrites owedReads bytesInSocket log emit].
    rewrite writes_app, reads_app, !length_app. cbn. split; [exact Hb | lia].
  - destruct (0 <? bytesInSocket (object x)) eqn:E;
      [|split; [exact Hb | exact Hl]].
    apply Z.ltb_lt in E.
    cbn [object owedWrites owedReads bytesInSocket log set_bytesInSocket].
    rewrite wrap_int_small by (unfold is_int in *; lia).
    rewrite length_app. cbn [length]. split; lia.
  - destruct (owedReads x) as [|fd rest] eqn:Er;
      [split; [exact Hb | rewrite Er; exact Hl]|].
    cbn [object owedWrites owedReads bytesInSocket log emit].
    rewrite writes_app, reads_app, !length_app. cbn in *.
    split; [exact Hb | lia].
  - cbn [object owedWrites owedReads]. unfold popNextMessage_remove.
    destruct (removeAndReturn 0 (queue (object x))); cbn.
    split; [exact Hb | exact Hl].
Qed.

Lemma accounted_moves (ms : list (Move Msg)) :
  forall x : Shared Msg, accounted x -> accounted (moves ms x).
Proof.
  induction ms as [|m ms IH]; intros x H; cbn; [exact H|].
  apply IH, accounted_move, H.
Qed.

Lemma postMessage_as_moves (m : Msg) (s : IMQ) :
  moves [PostLocked m; PostWrite] (mkShared s 0 []) = mkShared (postMessage m s) 0 [].
Proof.
  unfold postMessage. cbn [moves fold_left move object bytesInSocket set_queue].
  destruct (bytesInSocket s <? maxBytesInSocketQueue); reflexivity.
Qed.

Lemma popNextMessage_as_moves (fd : Z) (s : IMQ) :
  moves [PopLocked fd; PopRead; PopRemoved] (mkShared s 0 [])
  = mkShared (snd (popNextMessage fd s)) 0 [].
Proof.
  unfold popNextMessage, popNextMessage_count.
  cbn [moves fold_left move object].
  destruct (0 <? bytesInSocket s); reflexivity.
Qed.


(** *** Wakeup bytes against queued messages *)

Lemma length_queue_pop (fd : Z) (s : IMQ) :
  length (queue (snd (popNextMessage fd s))) = pred (length (queue s)).
Proof.
  destruct (popNextMessage_result Msg fd s) as [_ H]. rewrite H.
  rewrite removeAndReturn_head. destruct (queue s); reflexivity.
Qed.

Lemma covered_postMessage (m : Msg) (s : IMQ) :
  covered s -> covered (postMessage m s).
Proof.
  intros [Hb Hc]. split; [apply bytes_ok_postMessage, Hb|].
  rewrite bytesInSocket_postMessage by (apply bytes_ok_is_int, Hb).
  rewrite queue_postMessage, length_app. cbn [length].
  destruct (bytesInSocket s <? maxBytesInSocketQueue); lia.
Qed.

Lemma covered_popNextMessage (fd : Z) (s : IMQ) :
  covered s -> covered (snd (popNextMessage fd s)).
Proof.
  intros [Hb Hc]. split; [apply bytes_ok_popNextMessage, Hb|].
  rewrite bytesInSocket_popNextMessage by (apply bytes_ok_is_int, Hb).
  rewrite length_queue_pop. unfold bytes_ok in Hb.
  destruct (0 <? bytesInSocket s) eqn:E;
    [apply Z.ltb_lt in E | apply Z.ltb_ge in E]; lia.
Qed.

Lemma covered_postAll (msgs : list Msg) :
  forall s : IMQ, covered s -> covered (postAll msgs s).
Proof.
  induction msgs as [|m msgs IH]; intros s H; cbn; [exact H|].
  apply IH, covered_postMessage, H.
Qed.

Lemma covered_tryInvoke (m : Msg) (s : IMQ) :
  covered s -> covered (snd (tryInvoke messageCallback m s)).
Proof.
  intros H. unfold tryInvoke, runMessage.
  destruct (messageCallback m) as [ps c].
  assert (H1 : covered (postAll ps (emit Msg (Invoked m) s)))
    by (apply covered_postAll; exact H).
  destruct c; cbn [JUCE_CATCH_EXCEPTION snd]; exact H1.
Qed.

Lemma covered_drain (fuel : nat) (fd : Z) :
  forall s : IMQ, covered s -> covered (state_of (drain fuel fd s)).
Proof.
  induction fuel as [|k IH]; intros s H; cbn [drainCallback]; [exact H|].
  pose proof (covered_popNextMessage fd s H) as Hp.
  destruct (popNextMessage fd s) as [[m|] s1]; cbn [snd] in Hp; [|exact Hp].
  pose proof (covered_tryInvoke m s1 Hp) as Hr.
  destruct (tryInvoke messageCallback m s1) as [[|] s2]; cbn [snd] in Hr;
    [apply IH, Hr | exact Hr].
Qed.

Lemma drain_finished (fuel : nat) (fd : Z) :
  forall s s2 : IMQ,
  covered s -> drain fuel fd s = Drained s2 ->
  queue s2 = [] /\ bytesInSocket s2 = 0.
Proof.
  induction fuel as [|k IH]; intros s s2 H; [discriminate|].
  destruct (queue s) as [|m q] eqn:Hq.
  - rewrite drainCallback_empty by exact Hq. intros [= <-].
    split; [apply popNextMessage_nil, Hq|].
    destruct (covered_popNextMessage fd s H) as [Hb Hc].
    rewrite length_queue_pop, Hq in Hc. unfold bytes_ok in Hb.
    cbn in Hc. lia.
  - rewrite (drainCallback_step Msg messageCallback k fd s m q Hq).
    apply IH, covered_tryInvoke, covered_popNextMessage, H.
Qed.

(** X2.  A fresh queue accounts for no more wakeup bytes than it holds
    messages, and [postMessage], a whole [popNextMessage] and any run of the
    drain callback keep it so: between operations the counter never exceeds
    the number of queued messages. *)
Theorem counter_at_most_queue_length (pipe : Z * Z) :
  covered (construct (Msg := Msg) pipe) /\
  (forall (s : IMQ) (m : Msg), covered s -> covered (postMessage m s)) /\
  (forall (s : IMQ) (fd : Z),
     covered s -> covered (snd (popNextMessage fd s))) /\
  (forall (fuel : nat) (fd : Z) (s : IMQ),
     covered s -> covered (state_of (drain fuel fd s))).
Proof.
  split; [|split; [|split]].
  - split; [unfold bytes_ok, maxBytesInSocketQueue|]; cbn; lia.
  - intros s m; apply covered_postMessage.
  - intros s fd; apply covered_popNextMessage.
  - intros fuel fd s; apply covered_drain.
Qed.

(** X3.  When a run of the drain callback comes to its end, whatever its
    messages posted or raised, the queue is empty and the counter is 0: no
    wakeup byte is left accounted for.  On messages that post nothing, one
    loop turn more than there are messages brings it to its end. *)
Theorem finished_drain_leaves_nothing (fuel : nat) (fd : Z) (s s2 : IMQ) :
  covered s ->
  (drain fuel fd s = Drained s2 -> queue s2 = [] /\ bytesInSocket s2 = 0) /\
  ((forall m, In m (queue s) -> posts m = []) ->
   exists s3,
     drain (S (length (queue s))) fd s = Drained s3 /\
     queue s3 = [] /\ bytesInSocket s3 = 0).
Proof.
  intros H. split; [apply drain_finished, H|].
  intros Hquiet.
  destruct (drainCallback_quiet Msg messageCallback fd (queue s) s eq_refl
              Hquiet (proj1 H)) as [s3 [E _]].
  exists s3. split; [exact E|]. apply (drain_finished _ fd s s3 H E).
Qed.

(** X4.  On an empty queue the drain callback returns at its first test: it
    invokes nothing, and it reads one wakeup byte, taking one off the
    counter, exactly when the counter is positive. *)
Theorem drain_of_empty_queue (k : nat) (fd : Z) (s : IMQ) :
  queue s = [] ->
  bytes_ok s ->
  exists s2,
    drain (S k) fd s = Drained s2 /\
    queue s2 = [] /\
    log s2 = log s ++ (if 0 <? bytesInSocket s then [SysRead fd] else []) /\
    bytesInSocket s2
    = (if 0 <? bytesInSocket s then bytesInSocket s - 1 else 0).
Proof.
  intros Hq Hb. exists (snd (popNextMessage fd s)).
  split; [apply drainCallback_empty, Hq|].
  split; [apply popNextMessage_nil, Hq|].
  split; [apply log_popNextMessage|].
  rewrite bytesInSocket_popNextMessage by (apply bytes_ok_is_int, Hb).
  unfold bytes_ok in Hb.
  destruct (0 <? bytesInSocket s) eqn:E; [reflexivity|].
  apply Z.ltb_ge in E. lia.
Qed.

(** *** What a run of the drain callback invokes and reports *)

Lemma reports_app (l1 l2 : list (Event Msg)) :
  reports (l1 ++ l2) = reports l1 ++ reports l2.
Proof. unfold reports; apply flat_map_app. Qed.

Lemma reports_postAll (msgs : list Msg) :
  forall s : IMQ, reports (log (postAll msgs s)) = reports (log s).
Proof.
  induction msgs as [|m msgs IH]; intros s; cbn; [reflexivity|].
  change (fold_left (fun acc m0 => postMessage m0 acc) msgs (postMessage m s))
    with (postAll msgs (postMessage m s)).
  rewrite IH, log_postMessage, reports_app.
  destruct (bytesInSocket s <? maxBytesInSocketQueue); cbn;
    now rewrite app_nil_r.
Qed.

Lemma reports_popNextMessage (fd : Z) (s : IMQ) :
  reports (log (snd (popNextMessage fd s))) = reports (log s).
Proof.
  rewrite log_popNextMessage, reports_app.
  destruct (0 <? bytesInSocket s); cbn; now rewrite app_nil_r.
Qed.

Lemma reports_tryInvoke (m : Msg) (s : IMQ) :
  reports (log (snd (tryInvoke messageCallback m s)))
  = reports (log s) ++ (if throws messageCallback m then [m] else []).
Proof.
  unfold tryInvoke, runMessage, throws.
  destruct (messageCallback m) as [ps c].
  destruct c; cbn [JUCE_CATCH_EXCEPTION snd emit log].
  - rewrite reports_postAll. cbn [log emit]. rewrite reports_app. reflexivity.
  - rewrite reports_app, reports_postAll. cbn [log emit].
    rewrite reports_app. cbn. now rewrite app_nil_r.
Qed.

Lemma drain_trace (fuel : nat) (fd : Z) :
  forall s : IMQ,
  exists inv,
    invocations (log (state_of (drain fuel fd s)))
    = invocations (log s) ++ inv /\
    inv ++ queue (state_of (drain fuel fd s))
    = queue s ++ flat_map posts inv /\
    reports (log (state_of (drain fuel fd s)))
    = reports (log s) ++ filter (throws messageCallback) inv.
Proof.
  induction fuel as [|k IH]; intros s.
  - exists []. cbn. rewrite !app_nil_r. repeat split; reflexivity.
  - destruct (queue s) as [|m q] eqn:Hq.
    + rewrite drainCallback_empty by exact Hq. cbn [state_of].
      exists []. cbn [app flat_map filter]. rewrite !app_nil_r.
      rewrite invocations_popNextMessage, reports_popNextMessage.
      split; [reflexivity|]. split; [|reflexivity].
      apply popNextMessage_nil, Hq.
    + rewrite (drainCallback_step Msg messageCallback k fd s m q Hq).
      set (s1 := snd (popNextMessage fd s)).
      set (s2 := snd (tryInvoke messageCallback m s1)).
      assert (HI2 : invocations (log s2) = invocations (log s) ++ [m]).
      { unfold s2. rewrite invocations_body. unfold s1.
        now rewrite invocations_popNextMessage. }
      assert (HR2 : reports (log s2)
                    = reports (log s)
                      ++ (if throws messageCallback m then [m] else [])).
      { unfold s2. rewrite reports_tryInvoke. unfold s1.
        now rewrite reports_popNextMessage. }
      assert (HQ2 : queue s2 = q ++ posts m).
      { unfold s2. rewrite queue_body. unfold s1.
        destruct (popNextMessage_cons Msg fd s m q Hq) as [_ ->].
        reflexivity. }
      destruct (IH s2) as [inv [Hi [Hb Hr]]].
      rewrite HI2 in Hi. rewrite HQ2 in Hb. rewrite HR2 in Hr.
      exists (m :: inv). rewrite Hi, Hr, <- !app_assoc.
      split; [reflexivity|]. split.
      * cbn [app flat_map]. rewrite Hb, <- !app_assoc. reflexivity.
      * cbn [filter]. destruct (throws messageCallback m); reflexivity.
Qed.

(** X5.  At whatever point a run of the drain callback is looked at, the
    messages it has invoked so far followed by the messages still queued
    are the messages queued at its start followed by the messages that the
    invoked ones posted, in order: nothing queued or posted is skipped,
    reordered or invoked twice. *)
Theorem drain_invokes_queue_then_posts (fuel : nat) (fd : Z) (s : IMQ) :
  exists inv,
    invocations (log (state_of (drain fuel fd s)))
    = invocations (log s) ++ inv /\
    inv ++ queue (state_of (drain fuel fd s))
    = queue s ++ flat_map posts inv.
Proof.
  destruct (drain_trace fuel fd s) as [inv [Hi [Hb _]]].
  exists inv. split; assumption.
Qed.

(** X6.  A run of the drain callback reports exactly the invocations that
    raised: the messages reported are the invoked messages whose callback
    ends by raising, in the order of their invocation. *)
Theorem drain_reports_exactly_failures (fuel : nat) (fd : Z) (s : IMQ) :
  exists inv,
    invocations (log (state_of (drain fuel fd s)))
    = invocations (log s) ++ inv /\
    reports (log (state_of (drain fuel fd s)))
    = reports (log s) ++ filter (throws messageCallback) inv.
Proof.
  destruct (drain_trace fuel fd s) as [inv [Hi [_ Hr]]].
  exists inv. split; assumption.
Qed.

End Queue.

(** The bound of X1 is reached: 128 posts, then a pop that has taken its
    byte off the counter and not yet read it, then one more post. *)
Lemma unread_bytes_can_reach_129 :
  unread (moves (flat_map (fun m => [PostLocked m; PostWrite])
                          (repeat 1%nat 128)
                 ++ [PopLocked 4; PostLocked 1%nat; PostWrite])
                (mkShared (construct (3, 4)) 0 []))
  = 129.
Proof. vm_compute. reflexivity. Qed.

Lemma finished_drain_leaves_nothing_witness :
  covered Sample.twoQueued /\
  exists s3,
    drainCallback Sample.messageCallback 3 4 Sample.twoQueued = Drained s3 /\
    queue s3 = [] /\ bytesInSocket s3 = 0.
Proof.
  assert (H : covered Sample.twoQueued).
  { split; [unfold bytes_ok, maxBytesInSocketQueue|]; cbn; lia. }
  split; [exact H|].
  exact (proj2 (finished_drain_leaves_nothing
                  nat Sample.messageCallback 0 4 Sample.twoQueued
                  Sample.twoQueued H)
               (fun m _ => eq_refl)).
Defined.

Lemma drain_of_empty_queue_witness :
  (queue (construct (Msg := nat) (3, 4)) = [] /\
   bytes_ok (construct (Msg := nat) (3, 4))) /\
  exists s2,
    drainCallback Sample.messageCallback 1 4 (construct (3, 4)) = Drained s2 /\
    queue s2 = [].
Proof.
  assert (H : bytes_ok (construct (Msg := nat) (3, 4)))
    by (unfold bytes_ok, maxBytesInSocketQueue; cbn; lia).
  split; [split; [reflexivity | exact H]|].
  destruct (drain_of_empty_queue nat Sample.messageCallback 0 4
                                 (construct (3, 4)) eq_refl H)
    as [s2 [E [Hq _]]].
  exists s2. split; [exact E | exact Hq].
Defined.

End QueueExtras.

(** ** The run loop, continued *)

Module RunLoopExtras.

Import RunLoop.
Import RunLoopProperties.

Section Loop.

Variable Cb : Type.
Variable User : Type.
Variable invoke : Cb -> Z -> User -> User * list (ApiCall Cb).

Abbreviation IRL := (InternalRunLoop Cb).
Abbreviation W := (World Cb User).

(** *** Staging and merging *)

(** X7.  A descriptor that is unregistered anywhere in a batch of calls is
    in neither live vector after the merge, even when the same batch
    registers it, before or after: the merge applies all additions first
    and all removals last.  The merge reports a change. *)
Theorem unregistration_wins (s : IRL) (api : list (ApiCall Cb)) (d : Z) :
  In (Unregister d) api ->
  let r := applyPendingChanges (fold_left applyCall api s) in
  fst r = true /\
  ~ In d (callback_fds (snd r)) /\
  ~ In d (poll_fds (snd r)).
Proof.
  intros Hin r. unfold r. apply (removals_of_In Cb) in Hin.
  rewrite fold_applyCall, applyPendingChanges_closed.
  cbn [pendingAdditions pendingRemovals fdReadCallbacks pfds].
  assert (Hr : In d (pendingRemovals s ++ removals_of api))
    by (apply in_or_app; right; exact Hin).
  destruct (pendingRemovals s ++ removals_of api) as [|x rems] eqn:E;
    [contradiction|].
  rewrite andb_false_r. cbn [fst snd].
  split; [reflexivity|].
  split; apply purge_absent; exact Hr.
Qed.

(** X8.  Merging twice is merging once: right after a merge a second merge
    reports no change and leaves the run loop as it is. *)
Theorem applyPendingChanges_idempotent (s : IRL) :
  applyPendingChanges (snd (applyPendingChanges s))
  = (false, snd (applyPendingChanges s)).
Proof.
  destruct (applyPendingChanges_pending Cb s) as [Ha Hr].
  rewrite (applyPendingChanges_closed Cb (snd (applyPendingChanges s))).
  rewrite Ha, Hr. reflexivity.
Qed.

Lemma erase_absent {A : Type} (key : A -> Z) (d : Z) (v : list A) :
  ~ In d (map key v) -> erase_remove_if (fun x => key x =? d) v = v.
Proof.
  unfold erase_remove_if. induction v as [|x v IH]; cbn; [reflexivity|].
  intros H. destruct (key x =? d) eqn:E.
  - apply Z.eqb_eq in E. tauto.
  - cbn. rewrite IH; [reflexivity | tauto].
Qed.

(** X9.  With nothing else staged, [registerFdCallback] followed by the
    merge appends the callback to [fdReadCallbacks] and a [pollfd] of the
    same descriptor, with the given event mask and no event flagged, to
    [pfds]; the entries that were live stay, in their order. *)
Theorem register_then_merge (s : IRL) (d : Z) (cb : Cb) (eventMask : Z) :
  pendingAdditions s = [] ->
  pendingRemovals s = [] ->
  applyPendingChanges (registerFdCallback d cb eventMask s)
  = (true, mkLoop (fdReadCallbacks s ++ [(d, cb)])
                  (pfds s ++ [mkPollfd d eventMask 0]) [] []).
Proof.
  intros Ha Hr. rewrite applyPendingChanges_closed.
  unfold registerFdCallback.
  cbn [pendingAdditions pendingRemovals fdReadCallbacks pfds].
  rewrite Ha, Hr. cbn [app empty andb map fst snd].
  rewrite !purge_nil. reflexivity.
Qed.

(** X10.  With nothing else staged, [unregisterFdCallback] followed by the
    merge is [removeFdCallback]: every entry of the descriptor leaves both
    live vectors and the others stay in their order.  The merge reports a
    change even when the descriptor was not registered, in which case the
    run loop is left exactly as it was. *)
Theorem unregister_then_merge (s : IRL) (d : Z) :
  pendingAdditions s = [] ->
  pendingRemovals s = [] ->
  applyPendingChanges (unregisterFdCallback d s) = (true, removeFdCallback d s)
  /\
  (~ In d (callback_fds s) -> ~ In d (poll_fds s) -> removeFdCallback d s = s).
Proof.
  intros Ha Hr. split.
  - rewrite applyPendingChanges_closed. unfold unregisterFdCallback.
    cbn [pendingAdditions pendingRemovals fdReadCallbacks pfds].
    rewrite Ha, Hr. cbn [app empty andb map].
    rewrite !app_nil_r, !purge_cons, !purge_nil.
    unfold removeFdCallback. rewrite Ha, Hr. reflexivity.
  - intros H1 H2. unfold removeFdCallback.
    rewrite (erase_absent fst d _ H1), (erase_absent fd d _ H2).
    destruct s; reflexivity.
Qed.

(** *** How often a callback is a candidate *)

Lemma filter_filter_fd (d d' : Z) (cbs : list (Z * Cb)) :
  filter (fun c => fst c =? d) (filter (fun c => fst c =? d') cbs)
  = if d' =? d then filter (fun c => fst c =? d) cbs else [].
Proof.
  induction cbs as [|c cbs IH]; cbn; [destruct (d' =? d); reflexivity|].
  destruct (fst c =? d') eqn:E1; cbn; rewrite IH.
  - apply Z.eqb_eq in E1. rewrite E1.
    destruct (d' =? d); reflexivity.
  - destruct (d' =? d) eqn:E2; [|reflexivity].
    apply Z.eqb_eq in E2. subst d'. rewrite E1. reflexivity.
Qed.

Lemma candidates_count (s : IRL) (d : Z) :
  length (filter (fun c => fst c =? d) (candidates s))
  = Nat.mul
      (length (filter (fun p => negb (revents p =? 0) && (fd p =? d)) (pfds s)))
      (length (filter (fun c => fst c =? d) (fdReadCallbacks s))).
Proof.
  unfold candidates. induction (pfds s) as [|p ps IH]; [reflexivity|].
  cbn [flat_map filter]. rewrite filter_app, length_app, IH.
  unfold readyCallbacks. destruct (revents p =? 0); cbn [negb andb filter];
    [reflexivity|].
  rewrite filter_filter_fd. destruct (fd p =? d); cbn [length]; lia.
Qed.

(** *** A pass in which no callback touches the run loop *)

Lemma empty_app {A : Type} (l1 l2 : list A) :
  empty (l1 ++ l2) = empty l1 && empty l2.
Proof. destruct l1; reflexivity. Qed.

Lemma merge_of_nothing (s : IRL) :
  pendingAdditions s = [] -> pendingRemovals s = [] ->
  applyPendingChanges s = (false, s).
Proof.
  intros Ha Hr. rewrite applyPendingChanges_closed, Ha, Hr. reflexivity.
Qed.

Lemma invokeUntilChange_quiet (cands : list (Z * Cb)) :
  forall (w : W) (sent : bool),
  pendingAdditions (loop w) = [] ->
  pendingRemovals (loop w) = [] ->
  (forall c u, In c cands -> snd (invoke (snd c) (fst c) u) = []) ->
  exists u',
    invokeUntilChange invoke cands w sent
    = (GoOn (sent || negb (empty cands)),
       mkWorld (loop w) u' (calls w ++ cands)).
Proof.
  induction cands as [|c cands IH]; intros w sent Ha Hr Hq.
  - exists (user w). cbn. rewrite orb_false_r, app_nil_r.
    destruct w; reflexivity.
  - cbn [invokeUntilChange]. unfold callCallback.
    pose proof (Hq c (user w) (or_introl eq_refl)) as Hc.
    destruct (invoke (snd c) (fst c) (user w)) as [u api].
    cbn [snd] in Hc. subst api. cbn [fold_left loop].
    rewrite (merge_of_nothing _ Ha Hr).
    destruct (IH (set_loop (loop w)
                           (mkWorld (loop w) u
                                    (calls w ++ [(fst c, snd c)])))
                 true Ha Hr (fun c' u' H => Hq c' u' (or_intror H)))
      as [u' E].
    exists u'. rewrite E. cbn [empty negb loop set_loop calls].
    rewrite orb_true_r, <- app_assoc. destruct c; reflexivity.
Qed.

Lemma cleared_idle (p : pollfd) : revents p = 0 -> cleared p = p.
Proof. destruct p; cbn; intros ->; reflexivity. Qed.

Lemma forEachPfd_quiet (todo : list pollfd) :
  forall (visited : list pollfd) (w : W) (sent : bool),
  pfds (loop w) = visited ++ todo ->
  pendingAdditions (loop w) = [] ->
  pendingRemovals (loop w) = [] ->
  (forall c u,
     In c (flat_map (readyCallbacks (fdReadCallbacks (loop w))) todo) ->
     snd (invoke (snd c) (fst c) u) = []) ->
  exists u',
    forEachPfd invoke visited todo w sent
    = (sent || negb (empty (flat_map
                              (readyCallbacks (fdReadCallbacks (loop w)))
                              todo)),
       mkWorld (set_pfds (visited ++ map cleared todo) (loop w)) u'
               (calls w
                ++ flat_map (readyCallbacks (fdReadCallbacks (loop w)))
                            todo)).
Proof.
  induction todo as [|pfd rest IH]; intros visited w sent Hz Ha Hr Hq.
  - exists (user w). cbn. rewrite orb_false_r, !app_nil_r.
    rewrite app_nil_r in Hz. rewrite <- Hz.
    destruct w as [[f p a r] u c]; reflexivity.
  - cbn [forEachPfd flat_map map]. unfold readyCallbacks at 1 3.
    cbn [flat_map] in Hq. unfold readyCallbacks at 1 in Hq.
    destruct (revents pfd =? 0) eqn:E.
    + apply Z.eqb_eq in E. cbn [app] in *.
      destruct (IH (visited ++ [pfd]) w sent
                   ltac:(rewrite <- app_assoc; exact Hz) Ha Hr Hq)
        as [u' E'].
      exists u'. rewrite E', <- app_assoc, (cleared_idle pfd E).
      reflexivity.
    + set (chunk := filter (fun c => fst c =? fd pfd)
                           (fdReadCallbacks (loop w))) in *.
      set (w1 := set_loop (set_pfds (visited ++ cleared pfd :: rest) (loop w))
                          w).
      change (mkPollfd (fd pfd) (events pfd) 0) with (cleared pfd).
      fold w1. rewrite forEachCallback_invokeUntilChange.
      change (fdReadCallbacks (loop w1)) with (fdReadCallbacks (loop w)).
      fold chunk.
      destruct (invokeUntilChange_quiet chunk w1 sent Ha Hr
                  (fun c u H => Hq c u (in_or_app _ _ _ (or_introl H))))
        as [u1 E1].
      rewrite E1.
      destruct (IH (visited ++ [cleared pfd])
                   (mkWorld (loop w1) u1 (calls w1 ++ chunk))
                   (sent || negb (empty chunk))
                   ltac:(cbn; rewrite <- app_assoc; reflexivity) Ha Hr
                   (fun c u H => Hq c u (in_or_app _ _ _ (or_intror H))))
        as [u' E'].
      exists u'. rewrite E'. cbn [loop w1 set_loop set_pfds fdReadCallbacks
                                  pendingAdditions pendingRemovals calls].
      rewrite empty_app, negb_andb, orb_assoc, <- !app_assoc. reflexivity.
Qed.

Lemma quiet_pass (po : PollOutcome) (w : W) :
  let w1 := set_loop (snd (applyPendingChanges (loop w))) w in
  let w2 := set_loop (set_pfds (write_revents (pfds (loop w1))
                                              (poll_revents po))
                               (loop w1)) w1 in
  pfds (loop w1) <> [] ->
  poll_ret po <> 0 ->
  (forall c u, In c (candidates (loop w2)) ->
               snd (invoke (snd c) (fst c) u) = []) ->
  exists u',
    dispatchPendingEvents invoke po w
    = Done (negb (empty (candidates (loop w2))))
           (mkWorld (set_pfds (map cleared (pfds (loop w2))) (loop w2)) u'
                    (calls w ++ candidates (loop w2))).
Proof.
  intros w1 w2 Hne Hret Hq.
  unfold dispatchPendingEvents. fold w1. fold w2.
  destruct (front (pfds (loop w1))) eqn:Ef;
    [|exfalso; revert Ef; apply front_nonempty, Hne].
  apply Z.eqb_neq in Hret. rewrite Hret.
  destruct (applyPendingChanges_pending Cb (loop w)) as [Ha Hr].
  destruct (forEachPfd_quiet (pfds (loop w2)) [] w2 false eq_refl Ha Hr Hq)
    as [u' E].
  rewrite E. exists u'. reflexivity.
Qed.

(** X11.  In a pass that runs to its end (the poll set is not empty, the
    wait returns non-zero, no callback that is due touches the run loop),
    [dispatchPendingEvents] invokes the callbacks of a descriptor once for
    every entry of that descriptor in the poll set that is flagged ready:
    the invocations it makes on the descriptor number its ready poll
    entries times its callbacks.  A descriptor registered twice, with two
    entries and two callbacks, gets four invocations when it is ready. *)
Theorem invocations_per_descriptor (po : PollOutcome) (w : W) (d : Z) :
  let w1 := set_loop (snd (applyPendingChanges (loop w))) w in
  let w2 := set_loop (set_pfds (write_revents (pfds (loop w1))
                                              (poll_revents po))
                               (loop w1)) w1 in
  pfds (loop w1) <> [] ->
  poll_ret po <> 0 ->
  (forall c u, In c (candidates (loop w2)) ->
               snd (invoke (snd c) (fst c) u) = []) ->
  exists w' new,
    dispatchPendingEvents invoke po w = Done (negb (empty new)) w' /\
    calls w' = calls w ++ new /\
    length (filter (fun c => fst c =? d) new)
    = Nat.mul
        (length (filter (fun p => negb (revents p =? 0) && (fd p =? d))
                        (pfds (loop w2))))
        (length (filter (fun c => fst c =? d) (fdReadCallbacks (loop w1)))).
Proof.
  intros w1 w2 Hne Hret Hq.
  destruct (quiet_pass po w Hne Hret Hq) as [u' E]. fold w1 in E. fold w2 in E.
  eexists _, (candidates (loop w2)). split; [exact E|].
  split; [reflexivity|]. apply (candidates_count (loop w2) d).
Qed.

(** X12.  When no callback that is due in a pass makes a call on the run
    loop, the pass runs to its end: it invokes every candidate, in order,
    returns [true] exactly when there was one, leaves every [revents] at 0
    and changes nothing else in the run loop. *)
Theorem quiet_pass_runs_to_its_end (po : PollOutcome) (w : W) :
  let w1 := set_loop (snd (applyPendingChanges (loop w))) w in
  let w2 := set_loop (set_pfds (write_revents (pfds (loop w1))
                                              (poll_revents po))
                               (loop w1)) w1 in
  pfds (loop w1) <> [] ->
  poll_ret po <> 0 ->
  (forall c u, In c (candidates (loop w2)) ->
               snd (invoke (snd c) (fst c) u) = []) ->
  exists u',
    dispatchPendingEvents invoke po w
    = Done (negb (empty (candidates (loop w2))))
           (mkWorld (set_pfds (map cleared (pfds (loop w2))) (loop w2)) u'
                    (calls w ++ candidates (loop w2))).
Proof.
  intros w1 w2 Hne Hret Hq.
  unfold dispatchPendingEvents. fold w1. fold w2.
  destruct (front (pfds (loop w1))) eqn:Ef;
    [|exfalso; revert Ef; apply front_nonempty, Hne].
  apply Z.eqb_neq in Hret. rewrite Hret.
  destruct (applyPendingChanges_pending Cb (loop w)) as [Ha Hr].
  destruct (forEachPfd_quiet (pfds (loop w2)) [] w2 false eq_refl Ha Hr Hq)
    as [u' E].
  rewrite E. exists u'. reflexivity.
Qed.

(** *** Passes are defined while a descriptor stays registered *)

Lemma purge_keeps {A : Type} (key : A -> Z) (d : Z) (rems : list Z)
  (v : list A) :
  ~ In d rems -> In d (map key v) -> In d (map key (purge key rems v)).
Proof.
  intros Hn H. apply in_map_iff in H. destruct H as [x [Hk Hx]].
  apply in_map_iff. exists x. split; [exact Hk|].
  unfold purge. apply filter_In. split; [exact Hx|].
  apply negb_true_iff. destruct (existsb (Z.eqb (key x)) rems) eqn:E;
    [|reflexivity].
  apply existsb_exists in E. destruct E as [y [Hy Heq]].
  apply Z.eqb_eq in Heq. subst. contradiction.
Qed.

Lemma same_keeps (d : Z) (w w' : W) :
  same_but_revents w w' -> keeps d (loop w') -> keeps d (loop w).
Proof.
  intros (_ & _ & _ & Hp & Ha & Hr) [H1 H2].
  unfold keeps, poll_fds in *.
  rewrite Ha, Hr, map_fd_strip, Hp, <- map_fd_strip. tauto.
Qed.

Section Kept.

Variable d : Z.
Hypothesis nothing_unregisters_d :
  forall (cb : Cb) (d' : Z) (u : User),
    Forall (fun a => ~ unregisters d a) (snd (invoke cb d' u)).

Lemma keeps_fold_applyCall (api : list (ApiCall Cb)) (s : IRL) :
  Forall (fun a => ~ unregisters d a) api ->
  keeps d s -> keeps d (fold_left applyCall api s).
Proof.
  intros Hapi [H1 H2]. rewrite fold_applyCall. unfold keeps, poll_fds in *.
  cbn. split.
  - rewrite in_app_iff. intros [H|H]; [exact (H1 H)|].
    unfold removals_of in H. apply in_flat_map in H.
    destruct H as [a [Ha Hin]].
    rewrite Forall_forall in Hapi. specialize (Hapi a Ha).
    destruct a as [d0 cb m|d0]; cbn in Hin; [contradiction|].
    destruct Hin as [->|[]]. apply Hapi. reflexivity.
  - destruct H2 as [H2|H2]; [left; exact H2|].
    right. rewrite map_app, in_app_iff. left; exact H2.
Qed.

Lemma keeps_applyPendingChanges (s : IRL) :
  keeps d s ->
  keeps d (snd (applyPendingChanges s)) /\
  In d (poll_fds (snd (applyPendingChanges s))).
Proof.
  intros [H1 H2].
  assert (Hin : In d (poll_fds (snd (applyPendingChanges s)))).
  { rewrite applyPendingChanges_closed. unfold poll_fds in *.
    destruct (pendingAdditions s) as [|a adds] eqn:Ea;
      destruct (pendingRemovals s) as [|r rems] eqn:Er; cbn [empty andb snd].
    - destruct H2 as [H2|[]]. exact H2.
    - cbn [pfds]. apply purge_keeps; [exact H1|].
      rewrite map_app, in_app_iff. destruct H2 as [H2|[]]. left; exact H2.
    - cbn [pfds]. apply purge_keeps; [exact H1|].
      rewrite map_app, in_app_iff, map_map. tauto.
    - cbn [pfds]. apply purge_keeps; [exact H1|].
      rewrite map_app, in_app_iff, map_map. tauto. }
  split; [|exact Hin].
  destruct (applyPendingChanges_pending Cb s) as [Ha Hr].
  unfold keeps. rewrite Ha, Hr. split; [intros []|left; exact Hin].
Qed.

Lemma keeps_callCallback (cb : Cb) (d' : Z) (w : W) :
  keeps d (loop w) -> keeps d (loop (callCallback invoke cb d' w)).
Proof.
  intros H. pose proof (nothing_unregisters_d cb d' (user w)) as Hn.
  unfold callCallback. destruct (invoke cb d' (user w)) as [u api].
  cbn [loop snd] in *. apply keeps_fold_applyCall; assumption.
Qed.

Lemma keeps_invokeUntilChange (cands : list (Z * Cb)) :
  forall (w : W) (sent : bool),
  keeps d (loop w) ->
  keeps d (loop (snd (invokeUntilChange invoke cands w sent))).
Proof.
  induction cands as [|c cands IH]; intros w sent H;
    cbn [invokeUntilChange]; [exact H|].
  pose proof (proj1 (keeps_applyPendingChanges _
                       (keeps_callCallback (snd c) (fst c) w H))) as H1.
  destruct (applyPendingChanges
              (loop (callCallback invoke (snd c) (fst c) w)))
    as [[|] s2]; cbn [snd] in H1; [exact H1 | apply IH; exact H1].
Qed.

Lemma keeps_dispatchPendingEvents (po : PollOutcome) (w : W) :
  keeps d (loop w) ->
  exists b w',
    dispatchPendingEvents invoke po w = Done b w' /\ keeps d (loop w').
Proof.
  intros H. destruct (keeps_applyPendingChanges _ H) as [H1 Hin].
  pose proof (dispatchPendingEvents_cases Cb User invoke po w) as Hcases.
  set (w1 := set_loop (snd (applyPendingChanges (loop w))) w) in *.
  set (w2 := set_loop (set_pfds (write_revents (pfds (loop w1))
                                               (poll_revents po))
                                (loop w1)) w1) in *.
  assert (H2 : keeps d (loop w2)).
  { destruct H1 as [Ha Hb]. split; [exact Ha|].
    unfold poll_fds in *. cbn [w2 loop set_loop set_pfds pfds
                                 pendingAdditions].
    rewrite fd_write_revents. exact Hb. }
  destruct Hcases as [[Hnil _] | [[_ E] | (_ & _ & w' & E & Hsim)]].
  - exfalso. unfold poll_fds in Hin. change (pfds (loop w1) = []) in Hnil.
    change (In d (map fd (pfds (loop w1)))) in Hin.
    rewrite Hnil in Hin. exact Hin.
  - exists false, w2. split; [exact E | exact H2].
  - eexists _, w'. split; [exact E|].
    apply (same_keeps d w' _ Hsim), keeps_invokeUntilChange, H2.
Qed.

Lemma keeps_dispatchRounds (rs : list (Round Cb)) :
  forall w : W,
  Forall (fun r => Forall (fun a => ~ unregisters d a) (staged r)) rs ->
  keeps d (loop w) ->
  exists b w', dispatchRounds invoke rs w = Done b w' /\ keeps d (loop w').
Proof.
  induction rs as [|r rs IH]; intros w Hrs H; cbn [dispatchRounds].
  - exists false, w. split; [reflexivity | exact H].
  - inversion Hrs as [|r' rs' Hr Hrs']; subst.
    unfold dispatchRound.
    destruct (keeps_dispatchPendingEvents (outcome r)
                (set_loop (fold_left applyCall (staged r) (loop w)) w)
                (keeps_fold_applyCall _ _ Hr H)) as [b [w1 [E H1]]].
    rewrite E. apply IH; assumption.
Qed.

End Kept.

(** X13.  While some descriptor is polled or staged to be, and neither a
    callback nor another thread unregisters it, no pass takes [front] of an
    empty poll set: every round of the dispatch thread returns, whatever
    the waits report, and the descriptor is still polled afterwards. *)
Theorem passes_defined_while_registered (d : Z) :
  (forall (cb : Cb) (d' : Z) (u : User),
     Forall (fun a => ~ unregisters d a) (snd (invoke cb d' u))) ->
  forall (rs : list (Round Cb)) (w : W),
  Forall (fun r => Forall (fun a => ~ unregisters d a) (staged r)) rs ->
  keeps d (loop w) ->
  exists b w', dispatchRounds invoke rs w = Done b w' /\ keeps d (loop w').
Proof.
  intros Hcb rs w. apply keeps_dispatchRounds, Hcb.
Qed.

End Loop.

Lemma invocations_per_descriptor_witness :
  (pfds (loop (set_loop (snd (applyPendingChanges (loop Sample.twiceLive)))
                        Sample.twiceLive)) <> [] /\
   poll_ret Sample.bothReady <> 0) /\
  exists w' new,
    dispatchPendingEvents Sample.invoke Sample.bothReady Sample.twiceLive
    = Done (negb (empty new)) w' /\
    calls w' = new /\
    length (filter (fun c => fst c =? 5) new) = 4%nat.
Proof.
  assert (H1 : pfds (loop (set_loop
                             (snd (applyPendingChanges
                                     (loop Sample.twiceLive)))
                             Sample.twiceLive)) <> [])
    by (cbn; discriminate).
  assert (H2 : poll_ret Sample.bothReady <> 0) by (cbn; discriminate).
  split; [split; [exact H1 | exact H2]|].
  destruct (invocations_per_descriptor bool unit Sample.invoke
              Sample.bothReady Sample.twiceLive 5 H1 H2)
    as [w' [new [E [Hc Hn]]]].
  - intros c u Hin. cbn in Hin.
    destruct Hin as [<-|[<-|[<-|[<-|[]]]]]; reflexivity.
  - exists w', new. split; [exact E|]. split; [exact Hc | exact Hn].
Defined.

Lemma unregistration_wins_witness :
  In (Unregister 5) [Unregister 5; Register 5 true 1] /\
  ~ In 5 (callback_fds
            (snd (applyPendingChanges
                    (fold_left applyCall [Unregister 5; Register 5 true 1]
                               construct)))).
Proof.
  assert (H : In (Unregister 5) [Unregister 5; Register 5 true 1])
    by (left; reflexivity).
  split; [exact H|].
  exact (proj1 (proj2 (unregistration_wins bool construct _ 5 H))).
Defined.

Lemma register_then_merge_witness :
  (pendingAdditions (construct (Cb := bool)) = [] /\
   pendingRemovals (construct (Cb := bool)) = []) /\
  applyPendingChanges (registerFdCallback 5 true 1 construct)
  = (true, mkLoop [(5, true)] [mkPollfd 5 1 0] [] []).
Proof.
  split; [split; reflexivity|].
  exact (register_then_merge bool construct 5 true 1 eq_refl eq_refl).
Defined.

Lemma unregister_then_merge_witness :
  (pendingAdditions (loop Sample.oneLive) = [] /\
   pendingRemovals (loop Sample.oneLive) = []) /\
  applyPendingChanges (unregisterFdCallback 5 (loop Sample.oneLive))
  = (true, removeFdCallback 5 (loop Sample.oneLive)).
Proof.
  split; [split; reflexivity|].
  exact (proj1 (unregister_then_merge bool (loop Sample.oneLive) 5
                                      eq_refl eq_refl)).
Defined.

Lemma quiet_pass_runs_to_its_end_witness :
  (pfds (loop (set_loop (snd (applyPendingChanges (loop Sample.quietLive)))
                        Sample.quietLive)) <> [] /\
   poll_ret Sample.ready <> 0) /\
  exists u',
    dispatchPendingEvents Sample.invoke Sample.ready Sample.quietLive
    = Done true (mkWorld (loop Sample.quietLive) u' [(5, false)]).
Proof.
  assert (H1 : pfds (loop (set_loop
                             (snd (applyPendingChanges
                                     (loop Sample.quietLive)))
                             Sample.quietLive)) <> [])
    by (cbn; discriminate).
  assert (H2 : poll_ret Sample.ready <> 0) by (cbn; discriminate).
  split; [split; [exact H1 | exact H2]|].
  destruct (quiet_pass_runs_to_its_end bool unit Sample.invoke
              Sample.ready Sample.quietLive H1 H2) as [u' E].
  - intros c u Hin. cbn in Hin. destruct Hin as [<-|[]]. reflexivity.
  - exists u'. exact E.
Defined.

Lemma passes_defined_while_registered_witness :
  ((forall (cb : bool) (d' : Z) (u : unit),
      Forall (fun a => ~ unregisters 5 a)
             (snd (Sample.quietInvoke cb d' u))) /\
   keeps 5 (loop Sample.oneLive)) /\
  exists b w',
    dispatchRounds Sample.quietInvoke
                   [mkRound [] Sample.ready; mkRound [] Sample.ready]
                   Sample.oneLive
    = Done b w'.
Proof.
  assert (Hcb : forall (cb : bool) (d' : Z) (u : unit),
             Forall (fun a => ~ unregisters 5 a)
                    (snd (Sample.quietInvoke cb d' u)))
    by (intros cb d' u; constructor).
  assert (Hk : keeps 5 (loop Sample.oneLive))
    by (split; [intros F; exact F | left; left; reflexivity]).
  split; [split; [exact Hcb | exact Hk]|].
  destruct (passes_defined_while_registered
              bool unit Sample.quietInvoke 5 Hcb
              [mkRound [] Sample.ready; mkRound [] Sample.ready]
              Sample.oneLive ltac:(repeat constructor) Hk)
    as [b [w' [E _]]].
  exists b, w'. exact E.
Defined.

End RunLoopExtras.

(** ** The entry points of MessageManager, continued *)

Module ManagerExtras.

Import Manager.
Import ManagerProperties.

Section Entry.

Variable Msg : Type.
Variable Cb : Type.
Variable User : Type.
Variable invoke : Cb -> Z -> User -> User * list (RunLoop.ApiCall Cb).
Variable App : Type.
Variable quit : App -> App.

Abbreviation Proc := (Process Msg Cb User App).
Abbreviation dispatchNext := (dispatchNextMessageOnSystemQueue invoke quit).
Abbreviation deliver :=
  (fold_left (fun (acc : Proc) sig => keyboardBreakSignalHandler sig acc)).

Lemma deliver_signals (sigs : list Z) :
  forall p : Proc,
  keyboardBreakOccurred (deliver sigs p)
  = keyboardBreakOccurred p || existsb (fun sig => sig =? SIGINT) sigs /\
  messageQueue (deliver sigs p) = messageQueue p /\
  runLoop (deliver sigs p) = runLoop p /\
  application (deliver sigs p) = application p.
Proof.
  induction sigs as [|sig sigs IH]; intros p; cbn [fold_left existsb].
  - rewrite orb_false_r. repeat split.
  - destruct (IH (keyboardBreakSignalHandler sig p)) as (H1 & H2 & H3 & H4).
    rewrite H1, H2, H3, H4. unfold keyboardBreakSignalHandler.
    destruct (sig =? SIGINT); cbn.
    + rewrite orb_true_r. repeat split.
    + repeat split.
Qed.

(** X14.  The flag of the keyboard break is set by [SIGINT] and by no other
    signal, and nothing in the handler resets it: after any signals it is
    set exactly when it was set before or one of them was [SIGINT].  The
    handler touches nothing else. *)
Theorem keyboard_break_is_sticky (sigs : list Z) (p : Proc) :
  keyboardBreakOccurred (deliver sigs p)
  = keyboardBreakOccurred p || existsb (fun sig => sig =? SIGINT) sigs /\
  messageQueue (deliver sigs p) = messageQueue p /\
  runLoop (deliver sigs p) = runLoop p /\
  application (deliver sigs p) = application p.
Proof. apply deliver_signals. Qed.

(** X15.  Called with [returnIfNoPendingMessages = false], the function
    never returns [false]: whenever it returns, it returns [true]. *)
Theorem blocking_dispatch_never_returns_false (turns : list Turn) (p : Proc) :
  match dispatchNext false turns p with
  | Returned b _ => b = true
  | Looping _ | UndefinedBehaviour _ => True
  end.
Proof.
  revert p. induction turns as [|t turns IH]; intros p;
    cbn [dispatchNextMessageOnSystemQueue]; [exact I|].
  set (p1 := if keyboardBreakOccurred (deliver (signals t) p) then _ else _).
  destruct (runLoop p1) as [w|]; [|apply IH].
  destruct (RunLoop.dispatchPendingEvents invoke (dispatchPoll t) w)
    as [[|] w1|w1]; try exact I; [reflexivity|].
  destruct (RunLoop.sleepUntilNextEvent 2000 (sleepPoll t) w1) as [b w2|w2];
    [apply IH | exact I].
Qed.

Lemma turn_keeps_run_loop (t : Turn) (p : Proc) :
  runLoop (if keyboardBreakOccurred (deliver (signals t) p)
           then set_application Msg Cb User App
                  (quit (application (deliver (signals t) p)))
                  (deliver (signals t) p)
           else deliver (signals t) p)
  = runLoop p.
Proof.
  destruct (signals_keep_singletons Msg Cb User App (signals t) p) as [H _].
  cbv zeta in H.
  destruct (keyboardBreakOccurred (deliver (signals t) p)); cbn; exact H.
Qed.

(** X16.  Called with [returnIfNoPendingMessages = true] while the run loop
    exists, the function is done within its first turn: it never goes to
    sleep and never comes back to the top of its loop, so what later turns
    would bring makes no difference. *)
Theorem nonblocking_dispatch_takes_one_turn
  (t : Turn) (rest rest' : list Turn) (p : Proc) (w : RunLoop.World Cb User) :
  runLoop p = Some w ->
  dispatchNext true (t :: rest) p = dispatchNext true (t :: rest') p /\
  forall p', dispatchNext true (t :: rest) p <> Looping p'.
Proof.
  intros Hw. cbn [dispatchNextMessageOnSystemQueue].
  rewrite (turn_keeps_run_loop t p), Hw.
  destruct (RunLoop.dispatchPendingEvents invoke (dispatchPoll t) w)
    as [[|] w1|w1]; split; solve [reflexivity | discriminate].
Qed.

Lemma dispatchPendingEvents_result (po : RunLoop.PollOutcome)
  (w w' : RunLoop.World Cb User) (b : bool) :
  RunLoop.dispatchPendingEvents invoke po w = RunLoop.Done b w' ->
  exists new,
    RunLoop.calls w' = RunLoop.calls w ++ new /\
    b = negb (RunLoop.empty new).
Proof.
  intros E.
  destruct (RunLoopProperties.dispatchPendingEvents_cases Cb User invoke po w)
    as [[_ E1] | [[_ E1] | (_ & _ & w'' & E1 & Hsim)]];
    rewrite E1 in E; [discriminate| |].
  - injection E as <- <-. exists []. cbn. now rewrite app_nil_r.
  - injection E as <- <-.
    match type of Hsim with
    | RunLoop.same_but_revents _
        (snd (RunLoop.invokeUntilChange _ ?c ?w2 _)) =>
        destruct (RunLoopProperties.invokeUntilChange_calls
                    Cb User invoke c w2 false) as [k [Hk Hb]]
    end.
    destruct Hsim as (_ & Hc & _).
    eexists. split; [rewrite Hc, Hk; reflexivity | exact Hb].
Qed.

(** X17.  When the function returns, it returns [true] exactly when its
    passes invoked some callback: the run loop is still there, its log of
    invocations has grown by the invocations of the last pass, and the
    result says whether there were any. *)
Theorem dispatch_result_tells_whether_a_callback_ran
  (flag : bool) (turns : list Turn) :
  forall (p p' : Proc) (w : RunLoop.World Cb User) (b : bool),
  runLoop p = Some w ->
  dispatchNext flag turns p = Returned b p' ->
  exists w' new,
    runLoop p' = Some w' /\
    RunLoop.calls w' = RunLoop.calls w ++ new /\
    b = negb (RunLoop.empty new).
Proof.
  induction turns as [|t turns IH]; intros p p' w b Hw;
    cbn [dispatchNextMessageOnSystemQueue]; [discriminate|].
  pose proof (turn_keeps_run_loop t p) as Hk.
  set (p1 := if keyboardBreakOccurred (deliver (signals t) p) then _ else _)
    in *.
  rewrite Hk, Hw.
  pose proof (fun w' b => dispatchPendingEvents_result (dispatchPoll t) w w' b)
    as Hres.
  destruct (RunLoop.dispatchPendingEvents invoke (dispatchPoll t) w)
    as [[|] w1|w1]; [| |discriminate].
  - intros [= <- <-]. destruct (Hres w1 true eq_refl) as [new [Hc Hb]].
    exists w1, new. repeat split; assumption.
  - destruct (Hres w1 false eq_refl) as [new [Hc Hb]].
    destruct new as [|x new]; [|discriminate]. rewrite app_nil_r in Hc.
    destruct flag.
    + intros [= <- <-]. exists w1, []. rewrite app_nil_r.
      repeat split; assumption.
    + unfold RunLoop.sleepUntilNextEvent.
      destruct (front (RunLoop.pfds (RunLoop.loop w1))); [|discriminate].
      intros E. eapply IH in E; [|reflexivity].
      cbn [RunLoop.calls RunLoop.set_loop] in E. rewrite Hc in E. exact E.
Qed.

(** X18.  While the run loop does not exist and the flag of the keyboard
    break is set, every turn of the loop asks the application to quit
    again: after [n] turns [quit] has been called [n] times, and the
    function is still looping. *)
Theorem absent_run_loop_quits_every_turn (flag : bool) (turns : list Turn) :
  forall p : Proc,
  runLoop p = None ->
  keyboardBreakOccurred p = true ->
  exists p',
    dispatchNext flag turns p = Looping p' /\
    application p' = Nat.iter (length turns) quit (application p) /\
    keyboardBreakOccurred p' = true.
Proof.
  induction turns as [|t turns IH]; intros p Hn Hf;
    cbn [dispatchNextMessageOnSystemQueue length].
  - exists p. repeat split; assumption.
  - pose proof (turn_keeps_run_loop t p) as Hk.
    destruct (deliver_signals (signals t) p) as (H1 & _ & _ & H4).
    rewrite Hf in H1. cbn [orb] in H1. rewrite H1 in *.
    rewrite Hk, Hn.
    destruct (IH (set_application Msg Cb User App
                    (quit (application (deliver (signals t) p)))
                    (deliver (signals t) p)))
      as [p' [E [Ha Hb]]]; [rewrite <- Hn; exact Hk | exact H1 |].
    exists p'. split; [exact E|]. split; [|exact Hb].
    rewrite Ha. cbn [application set_application]. rewrite H4.
    symmetry. apply Nat.iter_succ_r.
Qed.

(** X23.  While some descriptor stays polled and every zero-timeout wait
    returns 0, a call with [returnIfNoPendingMessages = false] goes to sleep
    once per turn and is still looping after any number of turns: no
    callback is invoked, and the descriptor is still polled. *)
Theorem idle_blocking_dispatch_keeps_sleeping (d : Z) (turns : list Turn) :
  forall (p : Proc) (w : RunLoop.World Cb User),
  runLoop p = Some w ->
  RunLoop.keeps d (RunLoop.loop w) ->
  Forall (fun t => RunLoop.poll_ret (dispatchPoll t) = 0) turns ->
  exists p' w',
    dispatchNext false turns p = Looping p' /\
    runLoop p' = Some w' /\
    RunLoop.calls w' = RunLoop.calls w /\
    RunLoop.keeps d (RunLoop.loop w').
Proof.
  induction turns as [|t turns IH]; intros p w Hw Hk Hidle;
    cbn [dispatchNextMessageOnSystemQueue].
  - exists p, w. split; [reflexivity|]. split; [exact Hw|].
    split; [reflexivity | exact Hk].
  - inversion Hidle as [|t' turns' H0 Hrest]; subst.
    rewrite (turn_keeps_run_loop t p), Hw.
    destruct (RunLoopExtras.keeps_applyPendingChanges Cb d _ Hk) as [H1 Hin].
    unfold RunLoop.dispatchPendingEvents.
    set (w1 := RunLoop.set_loop
                 (snd (RunLoop.applyPendingChanges (RunLoop.loop w))) w) in *.
    change (RunLoop.keeps d (RunLoop.loop w1)) in H1.
    change (In d (RunLoop.poll_fds (RunLoop.loop w1))) in Hin.
    destruct (RunLoop.pfds (RunLoop.loop w1)) as [|x xs] eqn:Ep.
    { exfalso. unfold RunLoop.poll_fds in Hin. rewrite Ep in Hin.
      exact Hin. }
    cbn [front]. rewrite H0. cbn [Z.eqb].
    unfold RunLoop.sleepUntilNextEvent.
    cbn [RunLoop.loop RunLoop.set_loop RunLoop.set_pfds RunLoop.pfds].
    destruct (RunLoop.write_revents (x :: xs)
                (RunLoop.poll_revents (dispatchPoll t)))
      as [|y ys] eqn:Ew.
    { destruct (RunLoop.poll_revents (dispatchPoll t)); discriminate. }
    cbn [front].
    match goal with
    | |- context [dispatchNextMessageOnSystemQueue _ _ _ _ ?q] =>
        destruct (IH q (RunLoop.set_loop
                          (RunLoop.set_pfds
                             (RunLoop.write_revents (y :: ys)
                                (RunLoop.poll_revents (sleepPoll t)))
                             (RunLoop.loop w1)) w1))
          as [p' [w' [E [Hr [Hc Hk']]]]]
    end.
    + reflexivity.
    + destruct H1 as [Ha Hb]. split; [exact Ha|].
      unfold RunLoop.poll_fds in *.
      cbn [RunLoop.loop RunLoop.set_loop RunLoop.set_pfds RunLoop.pfds
           RunLoop.pendingAdditions].
      rewrite RunLoopProperties.fd_write_revents, <- Ew,
        RunLoopProperties.fd_write_revents, <- Ep.
      exact Hb.
    + exact Hrest.
    + exists p', w'. split; [exact E|]. split; [exact Hr|].
      split; [exact Hc | exact Hk'].
Qed.

End Entry.

Lemma idle_blocking_dispatch_keeps_sleeping_witness :
  (runLoop Sample.running = Some Sample.oneLive /\
   RunLoop.keeps 5 (RunLoop.loop Sample.oneLive) /\
   Forall (fun t => RunLoop.poll_ret (dispatchPoll t) = 0)
          [Sample.idle; Sample.idle]) /\
  exists p',
    dispatchNextMessageOnSystemQueue Sample.invoke Sample.quit false
      [Sample.idle; Sample.idle] Sample.running
    = Looping p'.
Proof.
  assert (Hk : RunLoop.keeps 5 (RunLoop.loop Sample.oneLive))
    by (split; [intros F; exact F | left; left; reflexivity]).
  assert (Hi : Forall (fun t => RunLoop.poll_ret (dispatchPoll t) = 0)
                      [Sample.idle; Sample.idle])
    by (repeat constructor).
  split; [split; [reflexivity | split; [exact Hk | exact Hi]]|].
  destruct (idle_blocking_dispatch_keeps_sleeping
              nat bool unit Sample.invoke unit Sample.quit 5
              [Sample.idle; Sample.idle] Sample.running Sample.oneLive
              eq_refl Hk Hi) as [p' [w' [E _]]].
  exists p'. exact E.
Defined.

Lemma nonblocking_dispatch_takes_one_turn_witness :
  runLoop Sample.running = Some Sample.oneLive /\
  dispatchNextMessageOnSystemQueue Sample.invoke Sample.quit true
    [Sample.interrupted; Sample.interrupted] Sample.running
  = dispatchNextMessageOnSystemQueue Sample.invoke Sample.quit true
      [Sample.interrupted] Sample.running.
Proof.
  split; [reflexivity|].
  exact (proj1 (nonblocking_dispatch_takes_one_turn
                  nat bool unit Sample.invoke unit Sample.quit
                  Sample.interrupted [Sample.interrupted] []
                  Sample.running Sample.oneLive eq_refl)).
Defined.

Lemma dispatch_result_tells_whether_a_callback_ran_witness :
  (runLoop Sample.running = Some Sample.oneLive /\
   exists p',
     dispatchNextMessageOnSystemQueue Sample.invoke Sample.quit false
       [Sample.interrupted] Sample.running
     = Returned true p') /\
  exists (p' : Process nat bool unit unit) w' new,
    runLoop p' = Some w' /\
    RunLoop.calls w' = RunLoop.calls Sample.oneLive ++ new /\
    true = negb (RunLoop.empty new).
Proof.
  assert (E : dispatchNextMessageOnSystemQueue Sample.invoke Sample.quit false
                [Sample.interrupted] Sample.running
              = Returned true
                  (mkProcess None
                     (Some (RunLoop.mkWorld (RunLoop.mkLoop [] [] [] []) tt
                                            [(5, true)]))
                     true tt))
    by reflexivity.
  split; [split; [reflexivity | eexists; exact E]|].
  destruct (dispatch_result_tells_whether_a_callback_ran
              nat bool unit Sample.invoke unit Sample.quit false
              [Sample.interrupted] Sample.running _ Sample.oneLive true
              eq_refl E) as [w' [new Hx]].
  eexists _, w', new. exact Hx.
Defined.

Lemma absent_run_loop_quits_every_turn_witness :
  (runLoop Sample.breaking = None /\
   keyboardBreakOccurred Sample.breaking = true) /\
  exists p',
    dispatchNextMessageOnSystemQueue Sample.invoke Sample.quit true
      [Sample.interrupted; Sample.interrupted] Sample.breaking
    = Looping p'.
Proof.
  split; [split; reflexivity|].
  destruct (absent_run_loop_quits_every_turn
              nat bool unit Sample.invoke unit Sample.quit true
              [Sample.interrupted; Sample.interrupted] Sample.breaking
              eq_refl eq_refl) as [p' [E _]].
  exists p'. exact E.
Defined.

End ManagerExtras.

(** ** Initialisation, shutdown and the registration interface *)

Module LifecycleProperties.

Import Lifecycle.

Section Host.

Variable Msg : Type.
Variable Cb : Type.
Variable User : Type.
Variable invoke : Cb -> Z -> User -> User * list (RunLoop.ApiCall Cb).
Variable App : Type.
Variable drainLambda : Cb.
Variable POLLIN : Z.

Abbreviation H := (Host Msg Cb User App).
Abbreviation Proc := (Manager.Process Msg Cb User App).
Abbreviation initialise := (doPlatformSpecificInitialisation drainLambda POLLIN).

(** The run loop right after the constructor of the queue registered its
    read handle. *)
Abbreviation started pipe u :=
  (RunLoop.mkWorld
     (RunLoop.registerFdCallback (snd pipe) drainLambda POLLIN
                                 RunLoop.construct) u []).

Lemma initialise_from_scratch (isStandaloneApp : bool) (u : User)
  (pipe : Z * Z) (h : H) :
  Manager.messageQueue (process h) = None ->
  Manager.runLoop (process h) = None ->
  process (initialise isStandaloneApp u pipe h)
  = Manager.mkProcess (Some (MessageQueue.construct pipe))
                      (Some (started pipe u))
                      (Manager.keyboardBreakOccurred (process h))
                      (Manager.application (process h)).
Proof.
  intros Hq Hr. unfold doPlatformSpecificInitialisation.
  assert (Hp : process (if isStandaloneApp
                        then installKeyboardBreakHandler Msg Cb User App h
                        else h) = process h)
    by (destruct isStandaloneApp; reflexivity).
  cbn [process set_process]. rewrite Hp.
  unfold InternalRunLoop_getInstance. rewrite Hr.
  unfold InternalMessageQueue_getInstance. cbn [Manager.messageQueue
    Manager.set_runLoop]. rewrite Hq.
  reflexivity.
Qed.

(** X19.  Initialisation of a process that has neither singleton creates
    both, the run loop first, so that the registration of the queue's read
    handle is not lost: it is staged, not yet visible to
    [getFdReadCallbacks], and the first pass merges it before it polls.
    Hence every pass from then on is defined, for as long as nobody
    unregisters that handle.  The handler of [SIGINT] is installed exactly
    for a standalone application. *)
Theorem initialisation_starts_both_singletons
  (isStandaloneApp : bool) (u : User) (pipe : Z * Z) (h : H) :
  Manager.messageQueue (process h) = None ->
  Manager.runLoop (process h) = None ->
  let h' := initialise isStandaloneApp u pipe h in
  Manager.messageQueue (process h') = Some (MessageQueue.construct pipe) /\
  Manager.runLoop (process h') = Some (started pipe u) /\
  getFdReadCallbacks (process h') = [] /\
  sigintHandlerInstalled h' = isStandaloneApp || sigintHandlerInstalled h /\
  closed h' = closed h /\
  (forall po, exists b w',
     RunLoop.dispatchPendingEvents invoke po (started pipe u)
     = RunLoop.Done b w') /\
  ((forall (cb : Cb) (d' : Z) (u' : User),
      Forall (fun a => ~ RunLoop.unregisters (snd pipe) a)
             (snd (invoke cb d' u'))) ->
   forall rs : list (RunLoop.Round Cb),
     Forall (fun r => Forall (fun a => ~ RunLoop.unregisters (snd pipe) a)
                             (RunLoop.staged r)) rs ->
     exists b w',
       RunLoop.dispatchRounds invoke rs (started pipe u)
       = RunLoop.Done b w').
Proof.
  intros Hq Hr h'.
  pose proof (initialise_from_scratch isStandaloneApp u pipe h Hq Hr) as Hp.
  fold h' in Hp.
  split; [rewrite Hp; reflexivity|].
  split; [rewrite Hp; reflexivity|].
  split; [unfold getFdReadCallbacks; rewrite Hp; reflexivity|].
  split; [destruct isStandaloneApp; reflexivity|].
  split; [destruct isStandaloneApp; reflexivity|].
  split.
  - intros po. unfold RunLoop.dispatchPendingEvents. cbn.
    destruct (RunLoop.poll_ret po =? 0); [eexists _, _; reflexivity|].
    match goal with
    | |- context [RunLoop.forEachPfd ?i ?v ?t ?w ?s] =>
        destruct (RunLoop.forEachPfd i v t w s) as [b w']
    end.
    exists b, w'. reflexivity.
  - intros Hcb rs Hrs.
    destruct (RunLoopExtras.keeps_dispatchRounds Cb User invoke (snd pipe)
                Hcb rs (started pipe u) Hrs) as [b [w' [E _]]].
    + split; [intros []|]. right. left. reflexivity.
    + exists b, w'. exact E.
Qed.

Lemma shutdown_state (h : H) :
  Manager.messageQueue (process (doPlatformSpecificShutdown h)) = None /\
  Manager.runLoop (process (doPlatformSpecificShutdown h)) = None /\
  Manager.keyboardBreakOccurred (process (doPlatformSpecificShutdown h))
  = Manager.keyboardBreakOccurred (process h) /\
  Manager.application (process (doPlatformSpecificShutdown h))
  = Manager.application (process h).
Proof.
  unfold doPlatformSpecificShutdown, InternalMessageQueue_deleteInstance.
  destruct (Manager.messageQueue (process h)) as [q|] eqn:Hq.
  - unfold InternalMessageQueue_destructor,
      LinuxEventLoop_unregisterFdCallback.
    destruct (Manager.runLoop (process h)); cbn; repeat split.
  - cbn. rewrite Hq. repeat split.
Qed.

(** X20.  Shutdown leaves neither singleton, whatever there was: the queue,
    if there was one, has its two handles closed, read handle first; after
    it [postMessageToSystemQueue] refuses every message and changes
    nothing, and [getFdReadCallbacks] yields the empty vector. *)
Theorem shutdown_leaves_no_singleton (h : H) :
  let h' := doPlatformSpecificShutdown h in
  Manager.messageQueue (process h') = None /\
  Manager.runLoop (process h') = None /\
  closed h'
  = closed h ++ match Manager.messageQueue (process h) with
                | Some q => [snd (MessageQueue.msgpipe q);
                             fst (MessageQueue.msgpipe q)]
                | None => []
                end /\
  getFdReadCallbacks (process h') = [] /\
  forall m : Msg,
    Manager.postMessageToSystemQueue m (process h') = (false, process h').
Proof.
  unfold doPlatformSpecificShutdown, InternalMessageQueue_deleteInstance.
  destruct (Manager.messageQueue (process h)) as [q|] eqn:Hq.
  - unfold InternalMessageQueue_destructor,
      LinuxEventLoop_unregisterFdCallback.
    destruct (Manager.runLoop (process h)); cbn; repeat split.
  - cbn. rewrite app_nil_r.
    unfold Manager.postMessageToSystemQueue, getFdReadCallbacks. cbn.
    rewrite Hq. repeat split.
Qed.

(** X21.  Initialisation changes nothing in a process that has both
    singletons: no second queue, no second registration.  And after a
    shutdown it starts afresh, whatever was queued or registered before:
    the process is the one initialisation makes from scratch. *)
Theorem initialisation_keeps_or_restarts
  (isStandaloneApp : bool) (u : User) (pipe : Z * Z) (h : H) :
  (forall q w,
     Manager.messageQueue (process h) = Some q ->
     Manager.runLoop (process h) = Some w ->
     process (initialise isStandaloneApp u pipe h) = process h) /\
  process (initialise isStandaloneApp u pipe (doPlatformSpecificShutdown h))
  = Manager.mkProcess (Some (MessageQueue.construct pipe))
                      (Some (started pipe u))
                      (Manager.keyboardBreakOccurred (process h))
                      (Manager.application (process h)).
Proof.
  split.
  - intros q w Hq Hr. unfold doPlatformSpecificInitialisation.
    assert (Hp : process (if isStandaloneApp
                          then installKeyboardBreakHandler Msg Cb User App h
                          else h) = process h)
      by (destruct isStandaloneApp; reflexivity).
    cbn [process set_process]. rewrite Hp.
    unfold InternalRunLoop_getInstance. rewrite Hr.
    unfold InternalMessageQueue_getInstance. rewrite Hq. reflexivity.
  - destruct (shutdown_state h) as (Hq & Hr & Hk & Ha).
    rewrite initialise_from_scratch by assumption.
    rewrite Hk, Ha. reflexivity.
Qed.

Lemma LinuxEventLoop_calls_closed (api : list (RunLoop.ApiCall Cb)) :
  forall p : Proc,
  fold_left LinuxEventLoop_call api p
  = match Manager.runLoop p with
    | Some w =>
        Manager.set_runLoop Msg Cb User App
          (Some (RunLoop.set_loop
                   (fold_left RunLoop.applyCall api (RunLoop.loop w)) w)) p
    | None => p
    end.
Proof.
  induction api as [|c api IH]; intros p; cbn [fold_left].
  - destruct (Manager.runLoop p) as [w|] eqn:E; [|reflexivity].
    destruct p as [q r k a]. cbn in *. subst r.
    destruct w; reflexivity.
  - rewrite IH. destruct c as [d cb m|d]; cbn [LinuxEventLoop_call];
      unfold LinuxEventLoop_registerFdCallback,
        LinuxEventLoop_unregisterFdCallback;
      destruct (Manager.runLoop p) as [w|] eqn:E; cbn; rewrite ?E;
      reflexivity.
Qed.

(** X22.  Calls of [LinuxEventLoop::registerFdCallback] and
    [LinuxEventLoop::unregisterFdCallback] only stage: whatever calls are
    made, in whatever order, [getFdReadCallbacks] yields what it yielded
    before, and the poll set is the same.  Made while there is no run loop,
    they are dropped: the process is left exactly as it was. *)
Theorem registration_calls_only_stage
  (api : list (RunLoop.ApiCall Cb)) (p : Proc) :
  getFdReadCallbacks (fold_left LinuxEventLoop_call api p)
  = getFdReadCallbacks p /\
  (forall w, Manager.runLoop p = Some w ->
     exists w',
       Manager.runLoop (fold_left LinuxEventLoop_call api p) = Some w' /\
       RunLoop.pfds (RunLoop.loop w') = RunLoop.pfds (RunLoop.loop w) /\
       RunLoop.pendingAdditions (RunLoop.loop w')
       = RunLoop.pendingAdditions (RunLoop.loop w)
         ++ RunLoop.additions_of api /\
       RunLoop.pendingRemovals (RunLoop.loop w')
       = RunLoop.pendingRemovals (RunLoop.loop w)
         ++ RunLoop.removals_of api) /\
  (Manager.runLoop p = None -> fold_left LinuxEventLoop_call api p = p).
Proof.
  rewrite LinuxEventLoop_calls_closed. unfold getFdReadCallbacks.
  destruct (Manager.runLoop p) as [w|] eqn:E.
  - cbn. rewrite RunLoopProperties.fold_applyCall. cbn.
    split; [reflexivity|]. split; [|discriminate].
    intros w0 [= <-]. eexists. split; [reflexivity|].
    cbn. repeat split.
  - rewrite E. split; [reflexivity|]. split; [discriminate | reflexivity].
Qed.

End Host.

Lemma initialisation_starts_both_singletons_witness :
  (Manager.messageQueue (process Sample.cold) = None /\
   Manager.runLoop (process Sample.cold) = None) /\
  getFdReadCallbacks
    (process (doPlatformSpecificInitialisation true 1 true tt (3, 4)
                                               Sample.cold)) = [] /\
  exists b w',
    RunLoop.dispatchPendingEvents Sample.invoke Sample.ready
      (RunLoop.mkWorld
         (RunLoop.registerFdCallback 4 true 1 RunLoop.construct) tt [])
    = RunLoop.Done b w'.
Proof.
  split; [split; reflexivity|].
  destruct (initialisation_starts_both_singletons
              nat bool unit Sample.invoke unit true 1 true tt (3, 4)
              Sample.cold eq_refl eq_refl)
    as (_ & _ & Hg & _ & _ & Hd & _).
  split; [exact Hg | exact (Hd Sample.ready)].
Defined.

End LifecycleProperties.
